(** * tuizlet: the study-session engine

    A shallow embedding of the answer matcher ([matchAnswer], with
    [normalizeText] and [levenshteinDistance]), of the two question
    generators ([generateQuestions] / [createQuestion] of the learn command and
    [generateMultipleChoiceQuestionsFromCards] / [generateQuestion] of the
    question-generator service) and of the key-driven session loop of
    [runLearnCommand], followed by the properties the specification states
    about them; then of [findQuizById], of the mode picker [selectLearnMode],
    of the start of [runLearnCommand] and of the keys of [showQuizMenu], with
    further properties of the code.

    JavaScript strings are sequences of UTF-16 code units; arrays are lists
    read with [!!] and written with [<[ _ := _ ]>]; [Math.random] is a tape of
    draws threaded through a state monad; the arithmetic of the summary screen
    is binary64. *)

From Stdlib Require Import ZArith NArith Lia Bool Ascii String.
From Stdlib Require Import PrimFloat Uint63 SpecFloat FloatOps.
From stdpp Require Import base option list numbers.

Set Default Proof Using "Type".

(* ===================================================================== *)
(** * Definitions *)
(* ===================================================================== *)

(** ** JavaScript strings and the built-ins the program calls *)

Module JS.

(** A string is the list of its UTF-16 code units. *)
Definition jsstring : Type := list N.

(** An ASCII literal as a JavaScript string. *)
Definition str (s : string) : jsstring :=
  map N_of_ascii (list_ascii_of_string s).

(** ECMAScript WhiteSpace and LineTerminator code units: what
    [String.prototype.trim] removes and what the regular expression class
    [\s] matches. *)
Definition isWhiteSpace (c : N) : bool :=
  ((9 <=? c) && (c <=? 13) || (c =? 32) || (c =? 160) || (c =? 5760)
   || (8192 <=? c) && (c <=? 8202) || (c =? 8232) || (c =? 8233)
   || (c =? 8239) || (c =? 8287) || (c =? 12288) || (c =? 65279))%N.

Fixpoint trimStart (s : jsstring) : jsstring :=
  match s with
  | [] => []
  | c :: rest => if isWhiteSpace c then trimStart rest else s
  end.

Definition trimEnd (s : jsstring) : jsstring := rev (trimStart (rev s)).

(** [s.trim()] *)
Definition trim (s : jsstring) : jsstring := trimEnd (trimStart s).

(** [s.replace(/\s+/g, space)]: every maximal run of white space becomes one
    space. [inRun] records that the previous code unit was white space. *)
Fixpoint replaceWhiteSpaceRuns (inRun : bool) (s : jsstring) : jsstring :=
  match s with
  | [] => []
  | c :: rest =>
      if isWhiteSpace c
      then (if inRun then replaceWhiteSpaceRuns true rest
            else 32%N :: replaceWhiteSpaceRuns true rest)
      else c :: replaceWhiteSpaceRuns false rest
  end.

(** [s.replace(/[\u0300-\u036f]/g, empty)]: the combining diacritical
    marks are deleted. *)
Definition isCombiningMark (c : N) : bool := ((768 <=? c) && (c <=? 879))%N.

Definition removeCombiningMarks (s : jsstring) : jsstring :=
  filter (λ c, isCombiningMark c = false) s.

(** [s.charAt(i)]: a one-unit string, or the empty string out of range. *)
Definition charAt (s : jsstring) (i : nat) : jsstring :=
  match s !! i with
  | Some c => [c]
  | None => []
  end.

(** [s.slice(0, -1)] *)
Definition dropLast (s : jsstring) : jsstring := take (length s - 1) s.

(** [<=] on strings: lexicographic on code units. *)
Fixpoint leb (s t : jsstring) : bool :=
  match s, t with
  | [], _ => true
  | _ :: _, [] => false
  | c :: s', d :: t' =>
      if (c <? d)%N then true
      else if (d <? c)%N then false
      else leb s' t'
  end.

(** [s.substring(from, to)] for [from <= to]. *)
Definition substring (from to : nat) (s : jsstring) : jsstring :=
  take (to - from) (drop from s).

Definition isDigit (c : N) : bool := ((48 <=? c) && (c <=? 57))%N.

Fixpoint digitsValue (acc : Z) (s : jsstring) : Z :=
  match s with
  | [] => acc
  | c :: rest =>
      if isDigit c then digitsValue (10 * acc + (Z.of_N c - 48)) rest
      else acc
  end.

(** [parseInt(s)] on a string that starts with a decimal digit other than
    a zero followed by [x]: the value of the longest prefix of digits.
    [None] is NaN. The one call site passes a string whose first code unit
    is between ['1'] and ['4']. *)
Definition parseInt (s : jsstring) : option Z :=
  match trimStart s with
  | c :: rest => if isDigit c then Some (digitsValue 0 (c :: rest)) else None
  | [] => None
  end.

(** The Unicode tables and the number formatter of the runtime, which the
    program calls and does not define. *)
Class Runtime := {
  (** [String.prototype.toLowerCase] *)
  toLowerCase : jsstring → jsstring;
  (** [String.prototype.normalize("NFD")] *)
  normalizeNFD : jsstring → jsstring;
  (** [Number.prototype.toString(36)] of a [Math.random] draw *)
  toString36 : N → jsstring
}.

(** *** An instance for the Basic Latin and Latin-1 blocks

    Case mapping and canonical decomposition of U+0000 to U+00FF; code units
    outside these blocks are left as they are. It is a plain definition, not
    an instance: the theorems below hold for every runtime, and Latin1
    serves to evaluate the program on concrete texts. *)

Definition latin1Lower (c : N) : N :=
  if ((65 <=? c) && (c <=? 90) || (192 <=? c) && (c <=? 214)
      || (216 <=? c) && (c <=? 222))%N
  then (c + 32)%N else c.

(** Base letter and combining mark of the capital letters that decompose. *)
Definition latin1UpperParts (c : N) : option (N * N) :=
  match c with
  | 192 => Some (65, 768) | 193 => Some (65, 769) | 194 => Some (65, 770)
  | 195 => Some (65, 771) | 196 => Some (65, 776) | 197 => Some (65, 778)
  | 199 => Some (67, 807)
  | 200 => Some (69, 768) | 201 => Some (69, 769) | 202 => Some (69, 770)
  | 203 => Some (69, 776)
  | 204 => Some (73, 768) | 205 => Some (73, 769) | 206 => Some (73, 770)
  | 207 => Some (73, 776)
  | 209 => Some (78, 771)
  | 210 => Some (79, 768) | 211 => Some (79, 769) | 212 => Some (79, 770)
  | 213 => Some (79, 771) | 214 => Some (79, 776)
  | 217 => Some (85, 768) | 218 => Some (85, 769) | 219 => Some (85, 770)
  | 220 => Some (85, 776)
  | 221 => Some (89, 769)
  | _ => None
  end%N.

Definition latin1Decompose (c : N) : jsstring :=
  match latin1UpperParts c with
  | Some (base, mark) => [base; mark]
  | None =>
      if (c =? 255)%N then [121; 776]%N
      else if ((224 <=? c) && (c <=? 253))%N then
        match latin1UpperParts (c - 32) with
        | Some (base, mark) => [(base + 32)%N; mark]
        | None => [c]
        end
      else [c]
  end.

(** The fraction [num / den] in base 36, to a fixed number of places; it
    stands for the digits [toString(36)] prints. *)
Definition digit36 (d : N) : N := if (d <? 10)%N then (48 + d)%N else (87 + d)%N.

Fixpoint base36Fraction (digits : nat) (num den : N) : jsstring :=
  match digits with
  | 0 => []
  | S k => digit36 (36 * num / den) :: base36Fraction k (36 * num mod den) den
  end.

Definition Latin1 : Runtime := {|
  toLowerCase := map latin1Lower;
  normalizeNFD := λ s, s ≫= latin1Decompose;
  toString36 := λ r, str "0." ++ base36Fraction 11 (r mod 2 ^ 53) (2 ^ 53)
|}.

End JS.

Import JS.

(** ** The matcher (services/text-matcher) *)

Module Matcher.

(** [MatchOptions]: every field is optional. *)
Record MatchOptions := {
  ignoreCase : option bool;
  ignoreAccents : option bool;
  allowTypoDistance : option Z
}.

(** The default argument [options = {}]. *)
Definition noOptions : MatchOptions :=
  {| ignoreCase := None; ignoreAccents := None; allowTypoDistance := None |}.

(** The [distance] field is a number that starts at [Infinity]. *)
Inductive Distance := Finite (d : nat) | Infinity.

Record MatchResult := {
  isCorrect : bool;
  isExact : bool;
  distance : Distance;
  matchedAnswer : option jsstring
}.

(** [d < best] on numbers, [best] possibly infinite. *)
Definition ltDistance (d : nat) (best : Distance) : bool :=
  match best with
  | Finite b => d <? b
  | Infinity => true
  end.

(** *** [levenshteinDistance] *)

(** [arr[i] = v] on an array written at an index it has ([i < length]) or
    at its end ([i = length], the array grows by one). The loops below
    write nowhere else. *)
Definition arraySet {A} (i : nat) (v : A) (arr : list A) : list A :=
  if decide (i < length arr) then <[i := v]> arr else arr ++ [v].

(** [matrix[i]![j]!]: the source asserts the cell is there. *)
Definition cell (matrix : list (list nat)) (i j : nat) : nat :=
  default 0 (matrix !! i ≫= λ row, row !! j).

(** [matrix[i]![j] = v] *)
Definition setCell (i j v : nat) (matrix : list (list nat)) : list (list nat) :=
  match matrix !! i with
  | Some row => <[i := arraySet j v row]> matrix
  | None => matrix
  end.

(** [Math.min(x, y, z)] *)
Definition mathMin3 (x y z : nat) : nat := x `min` (y `min` z).

(** The body of the inner loop at [(i, j)]. *)
Definition fillCell (a b : jsstring) (i j : nat) (matrix : list (list nat))
  : list (list nat) :=
  if decide (charAt b (i - 1) = charAt a (j - 1))
  then setCell i j (cell matrix (i - 1) (j - 1)) matrix
  else setCell i j
         (mathMin3 (cell matrix (i - 1) (j - 1) + 1)
                   (cell matrix i (j - 1) + 1)
                   (cell matrix (i - 1) j + 1))
         matrix.

Definition levenshteinMatrix (a b : jsstring) : list (list nat) :=
  (* for (let i = 0; i <= b.length; i++) matrix[i] = [i] *)
  let rows := foldl (λ m i, arraySet i [i] m) [] (seq 0 (S (length b))) in
  (* for (let j = 0; j <= a.length; j++) matrix[0]![j] = j *)
  let cols := foldl (λ m j, setCell 0 j j m) rows (seq 0 (S (length a))) in
  (* for i = 1 .. b.length, for j = 1 .. a.length *)
  foldl (λ m i, foldl (λ m' j, fillCell a b i j m') m (seq 1 (length a)))
        cols (seq 1 (length b)).

Definition levenshteinDistance (a b : jsstring) : nat :=
  cell (levenshteinMatrix a b) (length b) (length a).

Section WithRuntime.
Context `{Runtime}.

(** *** [normalizeText] *)
Definition normalizeText (text : jsstring) (ignoreAccents : bool) : jsstring :=
  let normalized := toLowerCase (trim text) in
  let normalized := replaceWhiteSpaceRuns false normalized in
  if ignoreAccents
  then removeCombiningMarks (normalizeNFD normalized)
  else normalized.

(** The two places where [matchAnswer] prepares a text:
    [ignoreCase ? normalizeText(s, ignoreAccents) : s.trim()]. *)
Definition prepare (ignoreCase ignoreAccents : bool) (s : jsstring) : jsstring :=
  if ignoreCase then normalizeText s ignoreAccents else trim s.

(** The [for] loop of [matchAnswer], with its early [return]. *)
Fixpoint matchLoop (ignoreCase ignoreAccents : bool) (allowTypoDistance : Z)
    (normalizedInput : jsstring) (bestMatch : MatchResult)
    (correctAnswers : list jsstring) : MatchResult :=
  match correctAnswers with
  | [] => bestMatch
  | answer :: rest =>
      let normalizedAnswer := prepare ignoreCase ignoreAccents answer in
      if decide (normalizedInput = normalizedAnswer) then
        {| isCorrect := true; isExact := true; distance := Finite 0;
           matchedAnswer := Some answer |}
      else
        let d := levenshteinDistance normalizedInput normalizedAnswer in
        let bestMatch' :=
          if ltDistance d (distance bestMatch) then
            {| isCorrect := bool_decide (Z.of_nat d ≤ allowTypoDistance)%Z;
               isExact := false;
               distance := Finite d;
               matchedAnswer :=
                 if bool_decide (Z.of_nat d ≤ allowTypoDistance)%Z
                 then Some answer else None |}
          else bestMatch in
        matchLoop ignoreCase ignoreAccents allowTypoDistance
                  normalizedInput bestMatch' rest
  end.

(** *** [matchAnswer] *)
Definition matchAnswer (userInput : jsstring) (correctAnswers : list jsstring)
    (options : MatchOptions) : MatchResult :=
  let ignoreCase := default true (ignoreCase options) in
  let ignoreAccents := default true (ignoreAccents options) in
  let allowTypoDistance := default 1%Z (allowTypoDistance options) in
  let normalizedInput := prepare ignoreCase ignoreAccents userInput in
  let bestMatch :=
    {| isCorrect := false; isExact := false; distance := Infinity;
       matchedAnswer := None |} in
  matchLoop ignoreCase ignoreAccents allowTypoDistance
            normalizedInput bestMatch correctAnswers.

End WithRuntime.

End Matcher.

(** ** [Math.random] *)

Module Random.

(** The draws [Math.random()] will return, in order. A draw [k] stands for
    the double [k / 2^53] of the interval from 0 (included) to 1
    (excluded). *)
Definition Tape : Type := nat → N.

(** A computation that consumes draws. *)
Definition Rand (A : Type) : Type := Tape → A * Tape.

Definition ret {A} (x : A) : Rand A := λ t, (x, t).

Definition bind {A B} (m : Rand A) (k : A → Rand B) : Rand B :=
  λ t, let (x, t') := m t in k x t'.

(** [Math.random()] *)
Definition random : Rand N := λ t, ((t 0%nat mod 2 ^ 53)%N, λ n, t (S n)).

(** [Math.floor(r * n)] *)
Definition floorTimes (r : N) (n : nat) : nat :=
  N.to_nat (r * N.of_nat n / 2 ^ 53).

(** [r < 0.5] *)
Definition belowHalf (r : N) : bool := (r <? 2 ^ 52)%N.

(** The value a computation returns on a tape. *)
Definition valueOn {A} (t : Tape) (m : Rand A) : A := fst (m t).

End Random.

Import Random.

Declare Scope rand_scope.
Delimit Scope rand_scope with rand.
Notation "'let*' x := m 'in' k" := (bind m (λ x, k))
  (at level 10, x name, m at level 100, k at level 200) : rand_scope.

(** ** The cards (models/card) and the helpers both generators define *)

Module Front.
(** [CardFront]; the hint and the media paths are not read by the engine. *)
Record t := { text : jsstring }.
End Front.

Module Back.
(** [CardBack]; [alternatives] may be missing on a card that did not go
    through the schema's default. *)
Record t := { text : jsstring; alternatives : option (list jsstring) }.
End Back.

Module Card.
Record t := { id : jsstring; front : Front.t; back : Back.t }.
End Card.

Module Choice.
(** An option of a multiple-choice question: [{id, text, isCorrect}]. *)
Record t := { id : jsstring; text : jsstring; isCorrect : bool }.
End Choice.

Inductive Direction := FrontToBack | BackToFront.

Module Shuffle.
Local Open Scope rand_scope.

(** [[result[i], result[j]] = [result[j], result[i]]] *)
Definition swap {A} (i j : nat) (result : list A) : list A :=
  match result !! i, result !! j with
  | Some x, Some y => <[j := x]> (<[i := y]> result)
  | _, _ => result
  end.

(** The loop [for (let i = ...; i > 0; i--)] of [shuffle], entered at [i]. *)
Fixpoint shuffleFrom {A} (i : nat) (result : list A) : Rand (list A) :=
  match i with
  | 0 => ret result
  | S i' =>
      let* r := random in
      let j := floorTimes r (i + 1) in
      shuffleFrom i' (swap i j result)
  end.

(** [shuffle]: Fisher-Yates on a copy of the array. *)
Definition shuffle {A} (array : list A) : Rand (list A) :=
  shuffleFrom (length array - 1) array.

(** [for (const x of l) body], where the body pushes onto [acc]. *)
Fixpoint forEach {A Q} (body : list Q → A → Rand (list Q))
    (acc : list Q) (l : list A) : Rand (list Q) :=
  match l with
  | [] => ret acc
  | x :: rest =>
      let* acc' := body acc x in
      forEach body acc' rest
  end.

(** [array.map(f)] for an [f] that draws. *)
Fixpoint mapRand {A B} (f : A → Rand B) (l : list A) : Rand (list B) :=
  match l with
  | [] => ret []
  | x :: rest =>
      let* y := f x in
      let* ys := mapRand f rest in
      ret (y :: ys)
  end.

Section WithRuntime.
Context `{Runtime}.

(** [generateId]: [Math.random().toString(36).substring(2, 10)] *)
Definition generateId : Rand jsstring :=
  let* r := random in ret (substring 2 10 (toString36 r)).

(** [{ id: generateId(), text, isCorrect }] *)
Definition newChoice (isCorrect : bool) (text : jsstring) : Rand Choice.t :=
  let* i := generateId in
  ret {| Choice.id := i; Choice.text := text; Choice.isCorrect := isCorrect |}.

End WithRuntime.

(** The template [What is "${text}"?] *)
Definition whatIs (text : jsstring) : jsstring :=
  str "What is " ++ [34%N] ++ text ++ [34%N; 63%N].

(** [direction === "front-to-back" ? c.back.text : c.front.text] *)
Definition answerSide (direction : Direction) (c : Card.t) : jsstring :=
  match direction with
  | FrontToBack => Back.text (Card.back c)
  | BackToFront => Front.text (Card.front c)
  end.

Definition promptSide (direction : Direction) (c : Card.t) : jsstring :=
  match direction with
  | FrontToBack => Front.text (Card.front c)
  | BackToFront => Back.text (Card.back c)
  end.

(** [allCards.filter((c) => c.id !== card.id)] *)
Definition otherCardsOf (card : Card.t) (allCards : list Card.t) : list Card.t :=
  filter (λ c, Card.id c ≠ Card.id card) allCards.

End Shuffle.

Import Shuffle.

(** ** The question-generator service (services/question-generator) *)

Module QuestionGenerator.
Local Open Scope rand_scope.

(** [MultipleChoiceQuestion] as the generator fills it; [type] is the
    literal [multiple-choice]. *)
Record MultipleChoiceQuestion := {
  cardId : jsstring;
  prompt : jsstring;
  options : list Choice.t;
  allowMultiple : bool
}.

Record GeneratedQuestion := {
  question : MultipleChoiceQuestion;
  card : Card.t;
  direction : Direction
}.

Record QuestionGeneratorOptions := {
  numOptions : option Z;
  bidirectional : option bool;
  shouldShuffle : option bool
}.

(** [array.slice(0, end)] for any integer [end]: a negative [end] counts
    from the end of the array. *)
Definition sliceTo {A} (stop : Z) (l : list A) : list A :=
  let len := Z.of_nat (length l) in
  let final := if (stop <? 0)%Z then Z.max (len + stop) 0 else Z.min stop len in
  take (Z.to_nat final) l.

Section WithRuntime.
Context `{Runtime}.

Definition generateQuestion (targetCard : Card.t) (allCards : list Card.t)
    (direction : Direction) (numOptions : Z) : Rand GeneratedQuestion :=
  let prompt := whatIs (promptSide direction targetCard) in
  let correctAnswer := answerSide direction targetCard in
  let otherCards := otherCardsOf targetCard allCards in
  let* shuffled := shuffle otherCards in
  let wrongCards := sliceTo (numOptions - 1) shuffled in
  let wrongAnswers := map (answerSide direction) wrongCards in
  let* correctOption := newChoice true correctAnswer in
  let* wrongOptions := mapRand (newChoice false) wrongAnswers in
  let* shuffledOptions := shuffle (correctOption :: wrongOptions) in
  ret {| question := {| cardId := Card.id targetCard; prompt := prompt;
                        options := shuffledOptions; allowMultiple := false |};
         card := targetCard; direction := direction |}.

(** The body of [for (const card of cardList)], pushing onto [questions]. *)
Definition pushQuestions (cardList : list Card.t) (numOptions : Z)
    (bidirectional : bool) (questions : list GeneratedQuestion) (card' : Card.t)
  : Rand (list GeneratedQuestion) :=
  let* q1 := generateQuestion card' cardList FrontToBack numOptions in
  let questions := questions ++ [q1] in
  if bidirectional then
    let* q2 := generateQuestion card' cardList BackToFront numOptions in
    ret (questions ++ [q2])
  else ret questions.

Definition generateMultipleChoiceQuestionsFromCards (cards : list Card.t)
    (opts : QuestionGeneratorOptions) : Rand (list GeneratedQuestion) :=
  let numOptions := default 4%Z (numOptions opts) in
  let bidirectional := default true (bidirectional opts) in
  let shouldShuffle := default true (shouldShuffle opts) in
  let* cardList := (if shouldShuffle then shuffle cards else ret cards) in
  let* questions := forEach (pushQuestions cardList numOptions bidirectional)
                                [] cardList in
  if shouldShuffle then shuffle questions else ret questions.

End WithRuntime.

End QuestionGenerator.

(** ** The learn command (commands/learn) *)

Module Learn.
Local Open Scope rand_scope.

Inductive LearnMode := MultipleChoice | TypeAnswer | Mixed.

(** The [mode] of a question: [multiple-choice] or [type-answer]. *)
Inductive QuestionMode := MultipleChoiceQ | TypeAnswerQ.

Record Question := {
  card : Card.t;
  prompt : jsstring;
  correctAnswers : list jsstring;
  direction : Direction;
  mode : QuestionMode;
  options : option (list Choice.t)
}.

Section WithRuntime.
Context `{Runtime}.

(** *** [createQuestion] *)
Definition createQuestion (card' : Card.t) (allCards : list Card.t)
    (direction' : Direction) (mode' : QuestionMode) : Rand Question :=
  let prompt' := whatIs (promptSide direction' card') in
  let correctAnswer := answerSide direction' card' in
  let alternatives :=
    match direction' with
    | FrontToBack => default [] (Back.alternatives (Card.back card'))
    | BackToFront => []
    end in
  let correctAnswers' := correctAnswer :: alternatives in
  match mode' with
  | MultipleChoiceQ =>
      let otherCards := otherCardsOf card' allCards in
      let* shuffled := shuffle otherCards in
      let wrongCards := take (3 `min` length otherCards) shuffled in
      let wrongAnswers := map (answerSide direction') wrongCards in
      let* correctOption := newChoice true correctAnswer in
      let* wrongOptions := mapRand (newChoice false) wrongAnswers in
      let* shuffledOptions := shuffle (correctOption :: wrongOptions) in
      ret {| card := card'; prompt := prompt'; correctAnswers := correctAnswers';
             direction := direction'; mode := mode';
             options := Some shuffledOptions |}
  | TypeAnswerQ =>
      ret {| card := card'; prompt := prompt'; correctAnswers := correctAnswers';
             direction := direction'; mode := mode'; options := None |}
  end.

(** [mode === "mixed" ? (Math.random() < 0.5 ? "multiple-choice" :
    "type-answer") : mode] *)
Definition pickMode (mode' : LearnMode) : Rand QuestionMode :=
  match mode' with
  | Mixed =>
      let* r := random in
      ret (if belowHalf r then MultipleChoiceQ else TypeAnswerQ)
  | MultipleChoice => ret MultipleChoiceQ
  | TypeAnswer => ret TypeAnswerQ
  end.

(** The body of [for (const card of shuffledCards)]. *)
Definition pushQuestions (shuffledCards : list Card.t) (mode' : LearnMode)
    (questions : list Question) (card' : Card.t) : Rand (list Question) :=
  let* questionMode := pickMode mode' in
  let* q1 := createQuestion card' shuffledCards FrontToBack questionMode in
  let questions := questions ++ [q1] in
  let* backMode := pickMode mode' in
  let* q2 := createQuestion card' shuffledCards BackToFront backMode in
  ret (questions ++ [q2]).

(** *** [generateQuestions] *)
Definition generateQuestions (cards : list Card.t) (mode' : LearnMode)
  : Rand (list Question) :=
  let* shuffledCards := shuffle cards in
  let* questions :=
    forEach (pushQuestions shuffledCards mode') [] shuffledCards in
  shuffle questions.

End WithRuntime.

(** *** The session state and the key handler of [runLearnCommand] *)

Record LearnState := {
  questions : list Question;
  currentIndex : nat;
  selectedOption : Z;
  typedAnswer : jsstring;
  answered : bool;
  correct : nat;
  incorrect : nat;
  showingResult : bool;
  lastAnswerCorrect : bool;
  (** [undefined] when the question has no accepted answer *)
  correctAnswer : option jsstring
}.

Record KeyEvent := { name : jsstring; ctrl : bool; meta : bool }.

(** What one call of [handleKey] does: it returns and stays registered, it
    detaches itself and resolves the command, or it throws. *)
Inductive Outcome :=
| Continue (state : LearnState)
| Resolved (state : LearnState)
| Throw.

Definition initialState (questions' : list Question) : LearnState :=
  {| questions := questions'; currentIndex := 0; selectedOption := (-1)%Z;
     typedAnswer := []; answered := false; correct := 0; incorrect := 0;
     showingResult := false; lastAnswerCorrect := false;
     correctAnswer := Some [] |}.

(** [state.selectedOption = k] *)
Definition withSelectedOption (k : Z) (state : LearnState) : LearnState :=
  {| questions := questions state; currentIndex := currentIndex state;
     selectedOption := k; typedAnswer := typedAnswer state;
     answered := answered state; correct := correct state;
     incorrect := incorrect state; showingResult := showingResult state;
     lastAnswerCorrect := lastAnswerCorrect state;
     correctAnswer := correctAnswer state |}.

(** [state.typedAnswer = text] *)
Definition withTypedAnswer (text : jsstring) (state : LearnState) : LearnState :=
  {| questions := questions state; currentIndex := currentIndex state;
     selectedOption := selectedOption state; typedAnswer := text;
     answered := answered state; correct := correct state;
     incorrect := incorrect state; showingResult := showingResult state;
     lastAnswerCorrect := lastAnswerCorrect state;
     correctAnswer := correctAnswer state |}.

(** The assignments both handlers make once an answer is graded:
    [answered = true], [lastAnswerCorrect], [correctAnswer], one counter,
    [showingResult = true]. *)
Definition recordAnswer (wasCorrect : bool) (currentQuestion : Question)
    (state : LearnState) : LearnState :=
  {| questions := questions state; currentIndex := currentIndex state;
     selectedOption := selectedOption state; typedAnswer := typedAnswer state;
     answered := true;
     correct := if wasCorrect then S (correct state) else correct state;
     incorrect := if wasCorrect then incorrect state else S (incorrect state);
     showingResult := true;
     lastAnswerCorrect := wasCorrect;
     correctAnswer := correctAnswers currentQuestion !! 0 |}.

(** The block of [handleKey] under [if (state.showingResult)]. *)
Definition advance (state : LearnState) : LearnState :=
  {| questions := questions state; currentIndex := S (currentIndex state);
     selectedOption := (-1)%Z; typedAnswer := []; answered := false;
     correct := correct state; incorrect := incorrect state;
     showingResult := false; lastAnswerCorrect := lastAnswerCorrect state;
     correctAnswer := correctAnswer state |}.

(** [currentQuestion.options?.length ?? 0] *)
Definition numOptionsOf (currentQuestion : Question) : nat :=
  match options currentQuestion with
  | Some os => length os
  | None => 0
  end.

(** The last [if] of [handleMultipleChoiceKey], on the [optionIndex] the
    key stands for ([None] is NaN). [None] as a result is the TypeError of
    reading a missing option. *)
Definition confirmOption (optionIndex : option Z) (currentQuestion : Question)
    (state : LearnState) : option LearnState :=
  match optionIndex with
  | None => Some state
  | Some k =>
      if bool_decide (0 ≤ k)%Z
         && bool_decide (k < Z.of_nat (numOptionsOf currentQuestion))%Z
         && negb (answered state)
      then
        match options currentQuestion ≫= (λ os, os !! Z.to_nat k) with
        | Some selectedOpt =>
            Some (recordAnswer (Choice.isCorrect selectedOpt) currentQuestion
                               (withSelectedOption k state))
        | None => None
        end
      else Some state
  end.

Definition isReturnKey (keyName : jsstring) : bool :=
  bool_decide (keyName = str "return") || bool_decide (keyName = str "enter").

Section Handlers.
Context `{Runtime}.

(** *** [handleMultipleChoiceKey] *)
Definition handleMultipleChoiceKey (event : KeyEvent) (state : LearnState)
  : option LearnState :=
  let keyName := toLowerCase (name event) in
  match questions state !! currentIndex state with
  | None => None
  | Some currentQuestion =>
      let numOptions := Z.of_nat (numOptionsOf currentQuestion) in
      if JS.leb (str "1") keyName && JS.leb keyName (str "4") then
        confirmOption (z ← parseInt keyName; Some (z - 1)%Z) currentQuestion state
      else if JS.leb (str "a") keyName && JS.leb keyName (str "d") then
        confirmOption (c ← keyName !! 0; Some (Z.of_N c - 97)%Z)
                      currentQuestion state
      else if bool_decide (keyName = str "up") then
        Some (withSelectedOption
                (if bool_decide (selectedOption state ≤ 0)%Z
                 then (numOptions - 1)%Z else (selectedOption state - 1)%Z)
                state)
      else if bool_decide (keyName = str "down") then
        Some (withSelectedOption
                (if bool_decide (numOptions - 1 ≤ selectedOption state)%Z
                 then 0%Z else (selectedOption state + 1)%Z)
                state)
      else if isReturnKey keyName && bool_decide (0 ≤ selectedOption state)%Z then
        confirmOption (Some (selectedOption state)) currentQuestion state
      else confirmOption (Some (-1)%Z) currentQuestion state
  end.

(** *** [handleTypeAnswerKey] *)
Definition handleTypeAnswerKey (event : KeyEvent) (state : LearnState)
  : option LearnState :=
  let keyName := toLowerCase (name event) in
  match questions state !! currentIndex state with
  | None => None
  | Some currentQuestion =>
      if bool_decide (keyName = str "backspace") then
        Some (withTypedAnswer (dropLast (typedAnswer state)) state)
      else if isReturnKey keyName then
        if bool_decide (0 < length (trim (typedAnswer state))) then
          let result :=
            Matcher.matchAnswer (typedAnswer state) (correctAnswers currentQuestion)
              {| Matcher.ignoreCase := Some true;
                 Matcher.ignoreAccents := Some true;
                 Matcher.allowTypoDistance := Some 1%Z |} in
          Some (recordAnswer (Matcher.isCorrect result) currentQuestion state)
        else Some state
      else if bool_decide (length (name event) = 1)
              && negb (ctrl event) && negb (meta event) then
        Some (withTypedAnswer (typedAnswer state ++ name event) state)
      else if bool_decide (keyName = str "space") then
        Some (withTypedAnswer (typedAnswer state ++ str " ") state)
      else Some state
  end.

(** *** [handleKey], the listener [runLearnCommand] registers *)
Definition handleKey (event : KeyEvent) (state : LearnState) : Outcome :=
  if bool_decide (length (questions state) ≤ currentIndex state) then
    Resolved state
  else if showingResult state then Continue (advance state)
  else
    match questions state !! currentIndex state with
    | None => Continue state
    | Some currentQuestion =>
        match
          match mode currentQuestion with
          | MultipleChoiceQ => handleMultipleChoiceKey event state
          | TypeAnswerQ => handleTypeAnswerKey event state
          end
        with
        | Some state' => Continue state'
        | None => Throw
        end
    end.

(** The key presses of a session, delivered one at a time while the
    listener is registered. *)
Fixpoint runKeys (events : list KeyEvent) (state : LearnState) : Outcome :=
  match events with
  | [] => Continue state
  | event :: rest =>
      match handleKey event state with
      | Continue state' => runKeys rest state'
      | stopped => stopped
      end
  end.

End Handlers.

(** *** The summary of [renderComplete] *)

(** A count as a JavaScript number. *)
Definition toNumber (n : nat) : float := of_uint63 (Uint63.of_Z (Z.of_nat n)).

(** [Math.round(x)]: the integer nearest to [x], a tie going up. The value
    of a finite double is [m * 2^e]; the floor of [x + 1/2] is taken on
    integers. *)
Definition mathRound (x : float) : Z :=
  match Prim2SF x with
  | S754_finite sign m e =>
      let num := if sign then Z.neg m else Z.pos m in
      if (0 <=? e)%Z then (num * 2 ^ e)%Z
      else ((2 * num + 2 ^ (- e)) / 2 ^ (- e + 1))%Z
  | _ => 0%Z
  end.

Record Summary := { total : nat; percentage : Z }.

Definition summary (state : LearnState) : Summary :=
  let total' := correct state + incorrect state in
  {| total := total';
     percentage :=
       if bool_decide (0 < total')
       then mathRound (toNumber (correct state) / toNumber total' * 100)%float
       else 0%Z |}.

End Learn.


(** ** The quiz loader (services/quiz-loader): [findQuizById] *)

Module QuizLoader.

(** [Quiz], as far as the commands read it: the title of its metadata and
    its cards. *)
Record Quiz := { title : jsstring; cards : list Card.t }.

Record LoadedQuiz := { quiz : Quiz; path : jsstring; id : jsstring }.

(** [s.startsWith(p)] *)
Definition startsWith (s p : jsstring) : bool :=
  bool_decide (take (length p) s = p).

(** [s.includes(p)]: [p] starts at some position of [s]. *)
Fixpoint includes (s p : jsstring) : bool :=
  startsWith s p
  || match s with
     | [] => false
     | _ :: rest => includes rest p
     end.

Section WithRuntime.
Context `{Runtime}.

(** *** [findQuizById]; [None] is [null]. *)
Definition findQuizById (quizzes : list LoadedQuiz) (searchId : jsstring)
  : option LoadedQuiz :=
  (* Exact match first *)
  match find (λ q, bool_decide (id q = searchId)) quizzes with
  | Some exact => Some exact
  | None =>
      (* Partial match (starts with) *)
      match find (λ q, startsWith (toLowerCase (id q)) (toLowerCase searchId))
                 quizzes with
      | Some partial => Some partial
      | None =>
          (* Fuzzy match (contains) *)
          find (λ q, includes (toLowerCase (id q)) (toLowerCase searchId)) quizzes
      end
  end.

End WithRuntime.

End QuizLoader.

(** ** What a search of the quiz ids means *)

Module QuizLoaderSpec.
Import QuizLoader.

(** [p] occurs in [s]. *)
Definition occursIn (p s : jsstring) : Prop := ∃ pre post, s = pre ++ p ++ post.

End QuizLoaderSpec.


(** ** The rest of the question-generator service *)

Module QuestionGeneratorApi.
Import QuizLoader QuestionGenerator.

Section WithRuntime.
Context `{Runtime}.

(** [generateMultipleChoiceQuestions] *)
Definition generateMultipleChoiceQuestions (quiz' : Quiz)
    (opts : QuestionGeneratorOptions) : Rand (list GeneratedQuestion) :=
  generateMultipleChoiceQuestionsFromCards (cards quiz') opts.

End WithRuntime.

(** [getCorrectOption]: [question.options.find((o) => o.isCorrect)];
    [None] is [undefined]. *)
Definition getCorrectOption (question' : MultipleChoiceQuestion) : option Choice.t :=
  find (λ o, Choice.isCorrect o) (options question').

End QuestionGeneratorApi.

(** ** The rest of the learn command: mode selection and start *)

Module LearnCommand.
Import QuizLoader Learn.

(** The [id]s of the entries of [modes], in order. *)
Definition modes : list LearnMode := [MultipleChoice; TypeAnswer; Mixed].

(** What one call of the key handler of [selectLearnMode] does: it keeps
    selecting, it resolves the promise with a mode or with [null], or it
    throws on a missing entry of [modes]. *)
Inductive Selection :=
| Selecting (selectedIndex : Z)
| Chosen (mode : option LearnMode)
| SelectionThrow.

(** [cursor <= 0 ? count - 1 : cursor - 1], the step every list on screen
    takes on the up key. *)
Definition cursorUp (count : nat) (cursor : Z) : Z :=
  if bool_decide (cursor ≤ 0)%Z then (Z.of_nat count - 1)%Z else (cursor - 1)%Z.

(** [cursor >= count - 1 ? 0 : cursor + 1] *)
Definition cursorDown (count : nat) (cursor : Z) : Z :=
  if bool_decide (Z.of_nat count - 1 ≤ cursor)%Z then 0%Z else (cursor + 1)%Z.

(** [array[index]] for a number [index]: nothing below 0. *)
Definition at_index {A} (array : list A) (index : Z) : option A :=
  if bool_decide (0 ≤ index)%Z then array !! Z.to_nat index else None.

Inductive Started :=
| Cancelled
| ErrorShown (message : jsstring)
| Running (state : LearnState).

Section WithRuntime.
Context `{Runtime}.

(** The handler [handleKey] inside [selectLearnMode]. *)
Definition selectModeKey (event : KeyEvent) (selectedIndex : Z) : Selection :=
  let key := toLowerCase (name event) in
  if bool_decide (key = str "up") then
    Selecting (cursorUp (length modes) selectedIndex)
  else if bool_decide (key = str "down") then
    Selecting (cursorDown (length modes) selectedIndex)
  else if isReturnKey key then
    match at_index modes selectedIndex with
    | Some mode => Chosen (Some mode)
    | None => SelectionThrow
    end
  else if bool_decide (key = str "escape") then Chosen None
  else Selecting selectedIndex.

(** [selectLearnMode] on the keys pressed while its handler is registered;
    [Selecting] at the end means the promise is still pending. *)
Fixpoint selectModeKeys (events : list KeyEvent) (selectedIndex : Z) : Selection :=
  match events with
  | [] => Selecting selectedIndex
  | event :: rest =>
      match selectModeKey event selectedIndex with
      | Selecting selectedIndex' => selectModeKeys rest selectedIndex'
      | stopped => stopped
      end
  end.

Definition selectLearnMode (events : list KeyEvent) : Selection :=
  selectModeKeys events 0%Z.

(** [runLearnCommand] up to the registration of the key handler, given the
    mode [selectLearnMode] resolved with. *)
Definition startLearn (mode : option LearnMode) (loadedQuizzes : list LoadedQuiz)
  : Rand Started :=
  match mode with
  | None => ret Cancelled
  | Some mode' =>
      (* for (const { quiz } of loadedQuizzes) allCards.push(...quiz.cards) *)
      let allCards := foldl (λ all q, all ++ cards (quiz q)) [] loadedQuizzes in
      if bool_decide (length allCards = 0) then
        ret (ErrorShown (str "No cards found in the selected quizzes."))
      else
        (let* questions := generateQuestions allCards mode' in
         if bool_decide (length questions = 0) then
           ret (ErrorShown (str "No questions could be generated from these quizzes."))
         else ret (Running (initialState questions)))%rand
  end.

End WithRuntime.

End LearnCommand.

(** ** The quiz menu (index) *)

Module Menu.
Import QuizLoader LearnCommand Learn.

(** [MenuOption]; the subtitle is display text only. *)
Record MenuOption := {
  id : jsstring;
  label : jsstring;
  cardCount : nat;
  quizzes : list LoadedQuiz
}.

(** The options [showQuizMenu] builds. *)
Definition menuOptions (quizzes' : list LoadedQuiz) : list MenuOption :=
  (if bool_decide (1 < length quizzes') then
     [ {| id := str "all"; label := str "All Quizzes (Mixed)";
          cardCount := foldl (λ sum q, sum + length (cards (quiz q))) 0 quizzes';
          quizzes := quizzes' |} ]
   else [])
  ++ map (λ q, {| id := QuizLoader.id q; label := title (quiz q);
                  cardCount := length (cards (quiz q)); quizzes := [q] |})
         quizzes'.

(** What one call of the menu's key handler does: it stays in the menu, it
    runs the learn command on an option, it exits, or it throws on a
    missing option. *)
Inductive MenuStep :=
| Browsing (selectedIndex : Z)
| Launch (selected : MenuOption)
| Quit
| MenuThrow.

Section WithRuntime.
Context `{Runtime}.

(** The handler [handleKey] inside [showQuizMenu]. *)
Definition menuKey (options : list MenuOption) (event : KeyEvent)
    (selectedIndex : Z) : MenuStep :=
  let key := toLowerCase (name event) in
  if bool_decide (key = str "up") then
    Browsing (cursorUp (length options) selectedIndex)
  else if bool_decide (key = str "down") then
    Browsing (cursorDown (length options) selectedIndex)
  else if isReturnKey key then
    match at_index options selectedIndex with
    | Some selected => Launch selected
    | None => MenuThrow
    end
  else if bool_decide (key = str "q") then Quit
  else Browsing selectedIndex.

(** The keys pressed in the menu up to the first that leaves it. *)
Fixpoint menuKeys (options : list MenuOption) (events : list KeyEvent)
    (selectedIndex : Z) : MenuStep :=
  match events with
  | [] => Browsing selectedIndex
  | event :: rest =>
      match menuKey options event selectedIndex with
      | Browsing selectedIndex' => menuKeys options rest selectedIndex'
      | stopped => stopped
      end
  end.

End WithRuntime.

End Menu.

(* ===================================================================== *)
(** * Specification-side definitions *)
(* ===================================================================== *)

(** ** What the specification says of the matcher *)

Module MatcherSpec.
Import Matcher.

(** The recurrence the loops of [levenshteinDistance] fill the matrix with:
    [lev a b i j] is the value of cell [(i, j)], the diagonal alone when the
    code units are equal. *)
Fixpoint lev (a b : jsstring) (i : nat) {struct i} : nat → nat :=
  match i with
  | 0 => λ j, j
  | S i' =>
      fix row (j : nat) : nat :=
        match j with
        | 0 => S i'
        | S j' =>
            if decide (charAt b i' = charAt a j') then lev a b i' j'
            else mathMin3 (lev a b i' j' + 1) (row j' + 1) (lev a b i' (S j') + 1)
        end
  end.

(** The textbook recurrence of the Levenshtein distance between the first
    [i] code units of [b] and the first [j] of [a]: base cases are the
    index, a substitution costs nothing on equal code units. *)
Fixpoint levenshtein (a b : jsstring) (i : nat) {struct i} : nat → nat :=
  match i with
  | 0 => λ j, j
  | S i' =>
      fix row (j : nat) : nat :=
        match j with
        | 0 => S i'
        | S j' =>
            mathMin3
              (levenshtein a b i' j'
               + (if decide (charAt b i' = charAt a j') then 0 else 1))
              (row j' + 1)
              (levenshtein a b i' (S j') + 1)
        end
  end.

(** The states of the matrix while the loops of [levenshteinDistance] run:
    row [k] holds the first [f k] values of the recurrence. *)
Section MatrixStates.
Variables a b : jsstring.

Definition rowSpec (i n : nat) : list nat := map (lev a b i) (seq 0 n).

Definition filled (f : nat → nat) : list (list nat) :=
  map (λ k, rowSpec k (f k)) (seq 0 (S (length b))).

(** Rows before [i] are complete, row [i] has [j] cells, later rows one. *)
Definition fillCount (i j k : nat) : nat :=
  if decide (k < i) then S (length a) else if decide (k = i) then j else 1.
End MatrixStates.

Section WithRuntime.
Context `{Runtime}.

(** The text [matchAnswer] compares, under the options' defaults. *)
Definition normalized (opts : MatchOptions) (s : jsstring) : jsstring :=
  prepare (default true (ignoreCase opts)) (default true (ignoreAccents opts)) s.

Definition tolerance (opts : MatchOptions) : Z :=
  default 1%Z (allowTypoDistance opts).

(** The Levenshtein distance between the normalized input and a
    normalized answer. *)
Definition editDistance (opts : MatchOptions) (input answer : jsstring) : nat :=
  levenshtein (normalized opts input) (normalized opts answer)
              (length (normalized opts answer)) (length (normalized opts input)).

Definition exactMatch (answer : jsstring) : MatchResult :=
  {| isCorrect := true; isExact := true; distance := Finite 0;
     matchedAnswer := Some answer |}.

Definition fuzzyMatch (tol : Z) (d : nat) (answer : jsstring) : MatchResult :=
  {| isCorrect := bool_decide (Z.of_nat d ≤ tol)%Z; isExact := false;
     distance := Finite d;
     matchedAnswer := if bool_decide (Z.of_nat d ≤ tol)%Z then Some answer else None |}.

(** The normalization in the specification's words: trim, collapse the
    runs of white space, lowercase if [ignoreCase], strip the accents if
    [ignoreAccents], each step on its own flag. *)
Definition claimedNormalize (ignoreCase ignoreAccents : bool) (s : jsstring)
  : jsstring :=
  let t := replaceWhiteSpaceRuns false (trim s) in
  let t := if ignoreCase then toLowerCase t else t in
  if ignoreAccents then removeCombiningMarks (normalizeNFD t) else t.
End WithRuntime.

(** The word of the specification's examples, with U+00E9 at its end. *)
Definition cafe_accent : jsstring := [99; 97; 102; 233]%N.

(** [{ignoreAccents: false}] *)
Definition keepAccents : MatchOptions :=
  {| ignoreCase := None; ignoreAccents := Some false; allowTypoDistance := None |}.

(** [{ignoreCase: false, ignoreAccents: true, allowTypoDistance: 0}] *)
Definition caseSensitive : MatchOptions :=
  {| ignoreCase := Some false; ignoreAccents := Some true;
     allowTypoDistance := Some 0%Z |}.

End MatcherSpec.

(** ** What the specification says of the session *)

Module SessionSpec.
Import Learn.

(** The option a one-character key names directly: 1 to 4 and a to d. *)
Definition directOption (c : N) : option Z :=
  if ((49 <=? c) && (c <=? 52))%N then Some (Z.of_N c - 49)%Z
  else if ((97 <=? c) && (c <=? 100))%N then Some (Z.of_N c - 97)%Z
  else None.

(** AwaitingAnswer: question [q] is current and not answered yet. *)
Definition awaiting (state : LearnState) (q : Question) : Prop :=
  showingResult state = false ∧ questions state !! currentIndex state = Some q.

(** ShowingResult is entered. *)
Definition finalizing (state state' : LearnState) : Prop :=
  showingResult state = false ∧ showingResult state' = true.

(** Exactly one of the two counters grew, by one. *)
Inductive counted (state state' : LearnState) : Prop :=
| counted_correct :
    correct state' = S (correct state) → incorrect state' = incorrect state →
    counted state state'
| counted_incorrect :
    correct state' = correct state → incorrect state' = S (incorrect state) →
    counted state state'.

(** What a handler does to the state: it leaves the counters, the index and
    [showingResult] alone (it may move the cursor or edit the buffer), or
    it records an answer. *)
Inductive handled (state state' : LearnState) : Prop :=
| handled_quiet :
    questions state' = questions state →
    currentIndex state' = currentIndex state →
    correct state' = correct state → incorrect state' = incorrect state →
    showingResult state' = showingResult state →
    handled state state'
| handled_answer wasCorrect q s :
    questions s = questions state → currentIndex s = currentIndex state →
    correct s = correct state → incorrect s = incorrect state →
    state' = recordAnswer wasCorrect q s →
    handled state state'.

(** The invariant of the session on [qs]: the answered questions are the
    ones before the index, and the current one while its result shows. *)
Definition counters_invariant (qs : list Question) (state : LearnState) : Prop :=
  questions state = qs ∧
  correct state + incorrect state
    = currentIndex state + (if showingResult state then 1 else 0) ∧
  currentIndex state + (if showingResult state then 1 else 0) ≤ length qs.

Section WithRuntime.
Context `{Runtime}.

(** The actions the specification rejects while an answer is awaited. *)
Inductive rejected (event : KeyEvent) (state : LearnState) (q : Question) : Prop :=
| blank_submit :
    mode q = TypeAnswerQ →
    isReturnKey (toLowerCase (name event)) = true →
    trim (typedAnswer state) = [] →
    rejected event state q
| confirm_unselected :
    mode q = MultipleChoiceQ →
    isReturnKey (toLowerCase (name event)) = true →
    (selectedOption state < 0
     ∨ Z.of_nat (numOptionsOf q) ≤ selectedOption state)%Z →
    rejected event state q
| direct_out_of_range c k :
    mode q = MultipleChoiceQ →
    toLowerCase (name event) = [c] →
    directOption c = Some k →
    (Z.of_nat (numOptionsOf q) ≤ k)%Z →
    rejected event state q.

(** The states a session on [qs] passes through. *)
Inductive reachable (qs : list Question) : LearnState → Prop :=
| reachable_initial : reachable qs (initialState qs)
| reachable_key state event state' :
    reachable qs state → handleKey event state = Continue state' →
    reachable qs state'.
End WithRuntime.

(** [round(100 * correct / total)] on exact numbers, a tie going up. *)
Definition roundedPercentage (correct total : nat) : Z :=
  if bool_decide (0 < total)
  then ((200 * Z.of_nat correct + Z.of_nat total) / (2 * Z.of_nat total))%Z
  else 0%Z.

(** A state with the given counters; the summary reads nothing else. *)
Definition countersOnly (correct' incorrect' : nat) : LearnState :=
  {| questions := []; currentIndex := 0; selectedOption := (-1)%Z;
     typedAnswer := []; answered := false; correct := correct';
     incorrect := incorrect'; showingResult := false;
     lastAnswerCorrect := false; correctAnswer := Some [] |}.

(** The summary and the exact rounding agree on every session of fewer
    than [n] questions. *)
Definition agreesBelow (n : nat) : bool :=
  forallb (λ total',
    forallb (λ correct',
      (percentage (summary (countersOnly correct' (total' - correct')))
       =? roundedPercentage correct' total')%Z)
      (seq 0 (S total')))
    (seq 0 n).

(** A card and a blank type-answer session on it, for the examples. *)
Definition hola : Card.t :=
  {| Card.id := str "1";
     Card.front := {| Front.text := str "hola" |};
     Card.back := {| Back.text := str "hello"; Back.alternatives := Some [str "hi"] |} |}.

Definition typedQuestion : Question :=
  {| card := hola; prompt := whatIs (str "hola");
     correctAnswers := [str "hello"; str "hi"]; direction := FrontToBack;
     mode := TypeAnswerQ; options := None |}.

Definition returnKey : KeyEvent :=
  {| name := str "return"; ctrl := false; meta := false |}.

End SessionSpec.


(** ** What a well-formed question is *)

Module GeneratorSpec.
Import Learn.

(** The two questions a card gives rise to. *)
Definition bothDirections (c : Card.t) : list (Card.t * Direction) :=
  [(c, FrontToBack); (c, BackToFront)].

(** The mode a question must have under a learn mode; none under [Mixed]. *)
Definition requiredMode (mode' : LearnMode) : option QuestionMode :=
  match mode' with
  | MultipleChoice => Some MultipleChoiceQ
  | TypeAnswer => Some TypeAnswerQ
  | Mixed => None
  end.

(** The fields of a question agree with its card and direction. *)
Definition consistent (cards : list Card.t) (q : Question) : Prop :=
  card q ∈ cards ∧
  prompt q = whatIs (promptSide (direction q) (card q)) ∧
  correctAnswers q !! 0 = Some (answerSide (direction q) (card q)) ∧
  (is_Some (options q) ↔ mode q = MultipleChoiceQ).

(** The options of a question on a card of [cards]: one to four, exactly one
    of them correct and showing the answer, the others showing the answer
    side of cards of the list with another id. *)
Definition options_shaped (cards : list Card.t) (card' : Card.t) (dir : Direction)
    (os : list Choice.t) : Prop :=
  1 ≤ length os ≤ 4 ∧
  length (filter (λ o, Choice.isCorrect o = true) os) = 1 ∧
  (∀ o, o ∈ os → Choice.isCorrect o = true → Choice.text o = answerSide dir card') ∧
  (∀ o, o ∈ os → Choice.isCorrect o = false →
        ∃ c, c ∈ cards ∧ Card.id c ≠ Card.id card' ∧ Choice.text o = answerSide dir c).

End GeneratorSpec.


(** ** Examples for the session *)

Module SessionExamples.
Import Learn SessionSpec.

(** A multiple-choice question on [hola] with two options, the second one
    correct. *)
Definition choiceQuestion : Question :=
  {| card := hola; prompt := whatIs (str "hola");
     correctAnswers := [str "hello"; str "hi"]; direction := FrontToBack;
     mode := MultipleChoiceQ;
     options := Some [ {| Choice.id := str "k3x9"; Choice.text := str "goodbye";
                          Choice.isCorrect := false |};
                       {| Choice.id := str "p0q2"; Choice.text := str "hello";
                          Choice.isCorrect := true |} ] |}.

(** A second card, with another id. *)
Definition adios : Card.t :=
  {| Card.id := str "2";
     Card.front := {| Front.text := str "adios" |};
     Card.back := {| Back.text := str "goodbye"; Back.alternatives := None |} |}.

Definition key (name' : jsstring) : KeyEvent :=
  {| name := name'; ctrl := false; meta := false |}.

(** The state in which [text] has been typed. *)
Definition typing (text : jsstring) : LearnState :=
  withTypedAnswer text (initialState [typedQuestion]).

End SessionExamples.


(** ** What a question of the service asks *)

Module ServiceSpec.
Import QuestionGenerator.

(** The directions a card is asked in. *)
Definition directionsAsked (bidirectional : bool) (c : Card.t)
  : list (Card.t * Direction) :=
  if bidirectional then [(c, FrontToBack); (c, BackToFront)]
  else [(c, FrontToBack)].

(** A generated question asks its card in its direction: it carries the
    card's id, prompts with the side the direction shows, and its correct
    option shows the other side. *)
Definition asksItsCard (g : GeneratedQuestion) : Prop :=
  cardId (question g) = Card.id (card g) ∧
  prompt (question g) = whatIs (promptSide (direction g) (card g)) ∧
  ∃ o, o ∈ options (question g) ∧ Choice.isCorrect o = true ∧
       Choice.text o = answerSide (direction g) (card g).

End ServiceSpec.

(** ** The finalizing actions, as the specification names them *)

Module SessionActions.
Import Learn SessionSpec SessionExamples.

Section WithRuntime.
Context `{Runtime}.

(** ConfirmOption on a selection made, a digit 1 to 4 or a letter a to d
    that names an option of the question, and SubmitTyped on a buffer that
    is not blank. *)
Inductive finalizingAction (event : KeyEvent) (state : LearnState) (q : Question)
  : Prop :=
| confirm_selected :
    mode q = MultipleChoiceQ →
    isReturnKey (toLowerCase (name event)) = true →
    (0 ≤ selectedOption state < Z.of_nat (numOptionsOf q))%Z →
    finalizingAction event state q
| confirm_direct c k :
    mode q = MultipleChoiceQ →
    toLowerCase (name event) = [c] →
    directOption c = Some k →
    (k < Z.of_nat (numOptionsOf q))%Z →
    finalizingAction event state q
| submit_typed :
    mode q = TypeAnswerQ →
    isReturnKey (toLowerCase (name event)) = true →
    trim (typedAnswer state) ≠ [] →
    finalizingAction event state q.

(** The key names that the comparisons [keyName >= "1" && keyName <= "4"]
    and [keyName >= "a" && keyName <= "d"] of [handleMultipleChoiceKey]
    let through although they are no single digit or letter. *)
Definition readAsOption (keyName : jsstring) : bool :=
  bool_decide (1 < length keyName)
  && (JS.leb (str "1") keyName && JS.leb keyName (str "4")
      || JS.leb (str "a") keyName && JS.leb keyName (str "d")).

End WithRuntime.

(** The Backspace key, as the type-answer handler expects it. *)
Definition backspaceKey : KeyEvent := key (str "backspace").

End SessionActions.

(* ===================================================================== *)
(** * Theorems *)
(* ===================================================================== *)

Import Matcher MatcherSpec.

(** ** The matrix of [levenshteinDistance] holds the recurrence *)

(** A loop over [lo, lo + cnt) whose every turn moves the state from
    [state j] to [state (S j)]. *)
Lemma foldl_seq_invariant {St : Type} (state : nat → St) (step : St → nat → St) lo cnt :
  (∀ j, lo ≤ j < lo + cnt → step (state j) j = state (S j)) →
  foldl step (state lo) (seq lo cnt) = state (lo + cnt).
Proof.
  revert lo. induction cnt as [|cnt IH]; intros lo Hstep; simpl.
  - by rewrite Nat.add_0_r.
  - rewrite Hstep by lia. rewrite IH.
    + f_equal. lia.
    + intros j Hj. apply Hstep. lia.
Qed.

Section LevenshteinMatrix.
Variables a b : jsstring.

Lemma lev_0_r i : lev a b i 0 = i.
Proof. by destruct i. Qed.

Lemma lev_S_S i j :
  lev a b (S i) (S j) =
    if decide (charAt b i = charAt a j) then lev a b i j
    else mathMin3 (lev a b i j + 1) (lev a b (S i) j + 1) (lev a b i (S j) + 1).
Proof. reflexivity. Qed.

Lemma rowSpec_length i n : length (rowSpec a b i n) = n.
Proof. unfold rowSpec. by rewrite length_map, length_seq. Qed.

Lemma rowSpec_lookup i n j : j < n → rowSpec a b i n !! j = Some (lev a b i j).
Proof.
  intros Hj. unfold rowSpec. rewrite list_lookup_fmap, lookup_seq_lt by done.
  done.
Qed.

Lemma rowSpec_S i n : rowSpec a b i (S n) = rowSpec a b i n ++ [lev a b i n].
Proof. unfold rowSpec. by rewrite seq_S, map_app. Qed.

Lemma filled_ext f g :
  (∀ k, k ≤ length b → f k = g k) → filled a b f = filled a b g.
Proof.
  intros Hfg. unfold filled. apply map_ext_in. intros k Hk.
  apply in_seq in Hk. rewrite Hfg by lia. done.
Qed.

Lemma filled_lookup f i :
  i ≤ length b → filled a b f !! i = Some (rowSpec a b i (f i)).
Proof.
  intros Hi. unfold filled. rewrite list_lookup_fmap, lookup_seq_lt by lia.
  done.
Qed.

(** Every cell the loops read has been written. *)
Lemma cell_filled f i j :
  i ≤ length b → j < f i → cell (filled a b f) i j = lev a b i j.
Proof.
  intros Hi Hj. unfold cell. rewrite filled_lookup by done. simpl.
  by rewrite rowSpec_lookup.
Qed.

Lemma setCell_filled_same f i j :
  i ≤ length b → j < f i →
  setCell i j (lev a b i j) (filled a b f) = filled a b f.
Proof.
  intros Hi Hj. unfold setCell. rewrite filled_lookup by done.
  unfold arraySet. rewrite rowSpec_length.
  rewrite decide_True by done.
  rewrite (list_insert_id (rowSpec a b i (f i))) by by apply rowSpec_lookup.
  apply list_insert_id. by apply filled_lookup.
Qed.

(** Every write lands on a cell the row has or on its end. *)
Lemma setCell_filled_next f g i :
  i ≤ length b → g i = S (f i) → (∀ k, k ≠ i → g k = f k) →
  setCell i (f i) (lev a b i (f i)) (filled a b f) = filled a b g.
Proof.
  intros Hi Hgi Hg. unfold setCell. rewrite filled_lookup by done.
  unfold arraySet. rewrite rowSpec_length.
  rewrite decide_False by lia. rewrite <- rowSpec_S, <- Hgi.
  apply list_eq. intros k.
  destruct (decide (k = i)) as [->|Hne].
  - rewrite list_lookup_insert_eq.
    + by rewrite filled_lookup.
    + unfold filled. rewrite length_map, length_seq. lia.
  - rewrite list_lookup_insert_ne by done.
    destruct (decide (k ≤ length b)).
    + rewrite !filled_lookup by done. by rewrite Hg.
    + rewrite !lookup_ge_None_2; [done| |];
        unfold filled; rewrite length_map, length_seq; lia.
Qed.

(** The first loop: one row [[i]] per prefix of [b]. *)
Lemma rows_initialised n :
  foldl (λ m i, arraySet i [i] m) [] (seq 0 n) = map (λ k, [k]) (seq 0 n).
Proof.
  induction n as [|n IH]; [done|].
  rewrite seq_S, foldl_app, IH, map_app. simpl.
  unfold arraySet. rewrite length_map, length_seq.
  by rewrite decide_False by lia.
Qed.

Lemma rows_initialised_filled :
  foldl (λ m i, arraySet i [i] m) [] (seq 0 (S (length b)))
  = filled a b (fillCount a 0 1).
Proof.
  rewrite rows_initialised. unfold filled. apply map_ext. intros k.
  unfold fillCount. rewrite decide_False by lia.
  assert (rowSpec a b k 1 = [k]) as Hrow
    by (unfold rowSpec; simpl; by rewrite lev_0_r).
  destruct (decide (k = 0)); by rewrite Hrow.
Qed.

(** The second loop writes row 0. *)
Lemma columns_initialised :
  foldl (λ m j, setCell 0 j j m) (filled a b (fillCount a 0 1))
        (seq 0 (S (length a)))
  = filled a b (fillCount a 1 1).
Proof.
  simpl seq. simpl foldl.
  change (setCell 0 0 0) with (setCell 0 0 (lev a b 0 0)).
  rewrite setCell_filled_same; [|lia|unfold fillCount; simpl; lia].
  rewrite (foldl_seq_invariant (λ j, filled a b (fillCount a 0 j))).
  - apply filled_ext. intros k Hk. unfold fillCount.
    repeat case_decide; lia.
  - intros j Hj.
    apply (setCell_filled_next (fillCount a 0 j) (fillCount a 0 (S j)) 0);
      [lia|done|].
    intros k Hk. unfold fillCount. repeat case_decide; lia.
Qed.

(** One turn of the inner loop computes the recurrence at [(i, j)]. *)
Lemma fillCell_filled i j :
  1 ≤ i ≤ length b → 1 ≤ j ≤ length a →
  fillCell a b i j (filled a b (fillCount a i j))
  = filled a b (fillCount a i (S j)).
Proof.
  intros Hi Hj. destruct i as [|i]; [lia|]. destruct j as [|j]; [lia|].
  unfold fillCell. simpl Nat.sub. rewrite !Nat.sub_0_r.
  rewrite !cell_filled; try lia;
    try (unfold fillCount; repeat case_decide; lia).
  assert (fillCount a (S i) (S j) (S i) = S j) as Hf
    by (unfold fillCount; repeat case_decide; lia).
  assert (∀ v, v = lev a b (S i) (S j) →
    setCell (S i) (S j) v (filled a b (fillCount a (S i) (S j)))
    = filled a b (fillCount a (S i) (S (S j)))) as Hset.
  { intros v ->.
    pose proof (setCell_filled_next (fillCount a (S i) (S j))
                  (fillCount a (S i) (S (S j))) (S i)) as Hnext.
    rewrite Hf in Hnext. apply Hnext; [lia| |].
    - unfold fillCount; repeat case_decide; lia.
    - intros k Hk. unfold fillCount; repeat case_decide; lia. }
  rewrite lev_S_S in Hset.
  case_decide; by apply Hset.
Qed.

Lemma row_filled i :
  1 ≤ i ≤ length b →
  foldl (λ m j, fillCell a b i j m) (filled a b (fillCount a i 1))
        (seq 1 (length a))
  = filled a b (fillCount a (S i) 1).
Proof.
  intros Hi.
  rewrite (foldl_seq_invariant (λ j, filled a b (fillCount a i j))).
  - apply filled_ext. intros k Hk. unfold fillCount. repeat case_decide; lia.
  - intros j Hj. apply fillCell_filled; lia.
Qed.

Lemma levenshteinMatrix_filled :
  levenshteinMatrix a b = filled a b (fillCount a (S (length b)) 1).
Proof.
  unfold levenshteinMatrix.
  rewrite rows_initialised_filled, columns_initialised.
  rewrite (foldl_seq_invariant (λ i, filled a b (fillCount a i 1))
             (λ m i, foldl (λ m' j, fillCell a b i j m') m (seq 1 (length a)))).
  - done.
  - intros i Hi. apply row_filled. lia.
Qed.

(** [levenshteinDistance] returns the value of the program's recurrence at
    the full lengths. *)
Lemma levenshteinDistance_lev :
  levenshteinDistance a b = lev a b (length b) (length a).
Proof.
  unfold levenshteinDistance. rewrite levenshteinMatrix_filled.
  apply cell_filled; [done|]. unfold fillCount. rewrite decide_True by lia. lia.
Qed.

(** *** The program's recurrence is the textbook one *)

Lemma levenshtein_0_r i : levenshtein a b i 0 = i.
Proof. by destruct i. Qed.

Lemma levenshtein_S_S i j :
  levenshtein a b (S i) (S j) =
    mathMin3
      (levenshtein a b i j + (if decide (charAt b i = charAt a j) then 0 else 1))
      (levenshtein a b (S i) j + 1)
      (levenshtein a b i (S j) + 1).
Proof. reflexivity. Qed.

Lemma levenshtein_step_down i j :
  levenshtein a b (S i) j ≤ levenshtein a b i j + 1.
Proof.
  destruct j as [|j].
  - rewrite !levenshtein_0_r. lia.
  - rewrite levenshtein_S_S. unfold mathMin3. lia.
Qed.

Lemma levenshtein_step_right i j :
  levenshtein a b i (S j) ≤ levenshtein a b i j + 1.
Proof.
  destruct i as [|i].
  - simpl. lia.
  - rewrite levenshtein_S_S. unfold mathMin3. lia.
Qed.

Lemma levenshtein_step_up i j :
  levenshtein a b i j ≤ levenshtein a b (S i) j + 1.
Proof.
  induction j as [|j IH].
  - rewrite !levenshtein_0_r. lia.
  - rewrite levenshtein_S_S. unfold mathMin3.
    pose proof (levenshtein_step_right i j). case_decide; lia.
Qed.

Lemma levenshtein_step_left i j :
  levenshtein a b i j ≤ levenshtein a b i (S j) + 1.
Proof.
  induction i as [|i IH].
  - simpl. lia.
  - rewrite levenshtein_S_S. unfold mathMin3.
    pose proof (levenshtein_step_down i j). case_decide; lia.
Qed.

(** Taking the diagonal alone on equal code units, as the program does,
    loses nothing. *)
Lemma lev_levenshtein i j : lev a b i j = levenshtein a b i j.
Proof.
  revert j. induction i as [|i IHi]; intros j; [done|].
  induction j as [|j IHj]; [done|].
  rewrite lev_S_S, levenshtein_S_S, !IHi, IHj.
  pose proof (levenshtein_step_up i j). pose proof (levenshtein_step_left i j).
  unfold mathMin3. case_decide; lia.
Qed.

(** [levenshteinDistance a b] is the Levenshtein distance of [a] and [b]. *)
Lemma levenshteinDistance_levenshtein :
  levenshteinDistance a b = levenshtein a b (length b) (length a).
Proof. by rewrite levenshteinDistance_lev, lev_levenshtein. Qed.

End LevenshteinMatrix.

(** ** The matcher *)

Section MatcherFacts.
Context `{Runtime}.

(** Without [ignoreCase] a text is trimmed and nothing else. *)
Lemma prepare_without_ignoreCase ignoreAccents s :
  prepare false ignoreAccents s = trim s.
Proof. reflexivity. Qed.

Lemma matchLoop_exact ic ia tol nin best pre answer post :
  nin = prepare ic ia answer →
  Forall (λ earlier, nin ≠ prepare ic ia earlier) pre →
  matchLoop ic ia tol nin best (pre ++ answer :: post) = exactMatch answer.
Proof.
  intros Heq Hpre. revert best.
  induction Hpre as [|earlier pre Hne _ IH]; intros best; simpl.
  - by rewrite decide_True.
  - rewrite decide_False by done. apply IH.
Qed.

(** The loop, entered with a best match at distance [d0], ends with the
    first answer at the least distance. *)
Lemma matchLoop_fuzzy ic ia tol nin answers d0 a0 :
  Forall (λ a, nin ≠ prepare ic ia a) answers →
  ∃ m best,
    (best = a0 ∧ m = d0 ∨
     best ∈ answers ∧ levenshteinDistance nin (prepare ic ia best) = m) ∧
    m ≤ d0 ∧
    (∀ a, a ∈ answers → m ≤ levenshteinDistance nin (prepare ic ia a)) ∧
    matchLoop ic ia tol nin (fuzzyMatch tol d0 a0) answers = fuzzyMatch tol m best.
Proof.
  intros Hne. revert d0 a0.
  induction Hne as [|a answers Ha _ IH]; intros d0 a0.
  - exists d0, a0. split_and!; [by left|done| |done].
    intros a Ha. by apply elem_of_nil in Ha.
  - simpl. rewrite decide_False by done.
    set (d := levenshteinDistance nin (prepare ic ia a)).
    destruct (d <? d0) eqn:Hlt.
    + apply Nat.ltb_lt in Hlt.
      destruct (IH d a) as (m & best & Hbest & Hle & Hmin & Hloop).
      exists m, best. split_and!.
      * right. destruct Hbest as [[-> ->]|[Hin Hd]].
        -- split; [apply list_elem_of_here|done].
        -- split; [by apply list_elem_of_further|done].
      * lia.
      * intros a' [->|Hin]%elem_of_cons; [done|by apply Hmin].
      * exact Hloop.
    + apply Nat.ltb_ge in Hlt.
      destruct (IH d0 a0) as (m & best & Hbest & Hle & Hmin & Hloop).
      exists m, best. split_and!.
      * destruct Hbest as [?|[Hin Hd]]; [by left|right].
        split; [by apply list_elem_of_further|done].
      * done.
      * intros a' [->|Hin]%elem_of_cons; [fold d; lia|by apply Hmin].
      * exact Hloop.
Qed.

(** C10. With no accepted answer [matchAnswer] does not throw: for every
    input and every options object it returns the initial best match, not
    correct, not exact, at an infinite distance and with no matched
    answer. *)
Theorem matchAnswer_no_answers input opts :
  matchAnswer input [] opts =
    {| isCorrect := false; isExact := false; distance := Infinity;
       matchedAnswer := None |}.
Proof. reflexivity. Qed.

(** C4. [matchAnswer] scans the accepted answers in order and returns at
    the first one whose normalized form equals the normalized input, as a
    correct, exact match at distance 0 on that answer, whatever the
    distances of the answers before it and whatever comes after it. *)
Theorem matchAnswer_first_exact input pre answer post opts :
  normalized opts input = normalized opts answer →
  Forall (λ earlier, normalized opts input ≠ normalized opts earlier) pre →
  matchAnswer input (pre ++ answer :: post) opts =
    {| isCorrect := true; isExact := true; distance := Finite 0;
       matchedAnswer := Some answer |}.
Proof.
  intros Heq Hpre. unfold matchAnswer. by apply matchLoop_exact.
Qed.

(** C5. When no accepted answer of a non-empty list matches exactly,
    [matchAnswer] reports the least Levenshtein distance [m] over the
    accepted answers: [distance] is [m], reached by the answer [best];
    [isCorrect] says whether [m] is within [allowTypoDistance];
    [matchedAnswer] is [best] within the tolerance and absent beyond it,
    where the distance is reported all the same; [isExact] is false. *)
Theorem matchAnswer_closest input answer rest opts :
  Forall (λ a, normalized opts input ≠ normalized opts a) (answer :: rest) →
  ∃ m best,
    best ∈ answer :: rest ∧
    editDistance opts input best = m ∧
    (∀ a, a ∈ answer :: rest → m ≤ editDistance opts input a) ∧
    matchAnswer input (answer :: rest) opts =
      {| isCorrect := bool_decide (Z.of_nat m ≤ tolerance opts)%Z;
         isExact := false;
         distance := Finite m;
         matchedAnswer :=
           if bool_decide (Z.of_nat m ≤ tolerance opts)%Z
           then Some best else None |}.
Proof.
  intros Hne. inversion Hne as [|? ? Hfirst Hrest]; subst.
  unfold matchAnswer. simpl matchLoop.
  fold (normalized opts input). fold (normalized opts answer).
  rewrite decide_False by done. simpl ltDistance. cbv iota.
  destruct (matchLoop_fuzzy (default true (ignoreCase opts))
              (default true (ignoreAccents opts)) (tolerance opts)
              (normalized opts input) rest
              (levenshteinDistance (normalized opts input) (normalized opts answer))
              answer Hrest)
    as (m & best & Hbest & Hle & Hmin & Hloop).
  exists m, best. split_and!.
  - destruct Hbest as [[-> _]|[Hin _]];
      [apply list_elem_of_here|by apply list_elem_of_further].
  - unfold editDistance. rewrite <- levenshteinDistance_levenshtein.
    destruct Hbest as [[-> ->]|[_ Hd]]; done.
  - intros a [->|Hin]%elem_of_cons; unfold editDistance;
      rewrite <- levenshteinDistance_levenshtein; [done|by apply Hmin].
  - exact Hloop.
Qed.

End MatcherFacts.

(** *** On the Latin-1 runtime *)

Lemma isWhiteSpace_spec c :
  isWhiteSpace c = true ↔
  (9 ≤ c ≤ 13 ∨ c = 32 ∨ c = 160 ∨ c = 5760 ∨ 8192 ≤ c ≤ 8202 ∨ c = 8232 ∨
   c = 8233 ∨ c = 8239 ∨ c = 8287 ∨ c = 12288 ∨ c = 65279)%N.
Proof.
  unfold isWhiteSpace.
  rewrite !orb_true_iff, !andb_true_iff, !N.leb_le, !N.eqb_eq. tauto.
Qed.

Lemma latin1Lower_whiteSpace c : isWhiteSpace (latin1Lower c) = isWhiteSpace c.
Proof.
  apply eq_true_iff_eq. rewrite !isWhiteSpace_spec.
  unfold latin1Lower. case_match eqn:Hc; [|done].
  rewrite !orb_true_iff, !andb_true_iff, !N.leb_le in Hc. lia.
Qed.

Lemma replaceWhiteSpaceRuns_lower inRun s :
  replaceWhiteSpaceRuns inRun (map latin1Lower s)
  = map latin1Lower (replaceWhiteSpaceRuns inRun s).
Proof.
  revert inRun. induction s as [|c s IH]; intros inRun; [done|].
  cbn [map replaceWhiteSpaceRuns]. rewrite latin1Lower_whiteSpace.
  destruct (isWhiteSpace c), inRun; cbn [map]; by rewrite ?IH.
Qed.

(** With [ignoreCase] set the program normalizes as the specification says:
    it lowercases before it collapses the white space, which gives the same
    text. *)
Lemma prepare_with_ignoreCase ignoreAccents s :
  prepare (H:=Latin1) true ignoreAccents s
  = claimedNormalize (H:=Latin1) true ignoreAccents s.
Proof.
  unfold prepare, normalizeText, claimedNormalize. cbn [toLowerCase Latin1].
  by rewrite replaceWhiteSpaceRuns_lower.
Qed.

(** C1. With [ignoreCase: false] the program trims the input and the answers
    and does nothing else, although [ignoreAccents] is set: two spaces in a
    row are kept where the specification collapses them, and U+00E9 keeps
    its accent where the specification strips it, so that neither input is
    accepted at tolerance 0. *)
Theorem ignoreCase_off_skips_normalization :
  normalized (H:=Latin1) caseSensitive (str "a  b") = str "a  b" ∧
  claimedNormalize (H:=Latin1) false true (str "a  b") = str "a b" ∧
  matchAnswer (H:=Latin1) (str "a  b") [str "a b"] caseSensitive =
    {| isCorrect := false; isExact := false; distance := Finite 1;
       matchedAnswer := None |} ∧
  normalized (H:=Latin1) caseSensitive cafe_accent = cafe_accent ∧
  claimedNormalize (H:=Latin1) false true cafe_accent = str "cafe" ∧
  matchAnswer (H:=Latin1) cafe_accent [str "cafe"] caseSensitive =
    {| isCorrect := false; isExact := false; distance := Finite 1;
       matchedAnswer := None |}.
Proof. by vm_compute. Qed.

(** The example of the specification: the exact match on the second answer
    wins over the answer at distance 1 before it. *)
Lemma matchAnswer_first_exact_witness :
  normalized (H:=Latin1) keepAccents cafe_accent
    = normalized (H:=Latin1) keepAccents cafe_accent ∧
  Forall (λ earlier, normalized (H:=Latin1) keepAccents cafe_accent
                     ≠ normalized (H:=Latin1) keepAccents earlier) [str "cafe"] ∧
  matchAnswer (H:=Latin1) cafe_accent [str "cafe"; cafe_accent] keepAccents =
    {| isCorrect := true; isExact := true; distance := Finite 0;
       matchedAnswer := Some cafe_accent |}.
Proof.
  assert (Forall (λ earlier, normalized (H:=Latin1) keepAccents cafe_accent
                             ≠ normalized (H:=Latin1) keepAccents earlier)
                 [str "cafe"]) as Hpre.
  { constructor; [|constructor]. vm_compute. discriminate. }
  split_and!; [reflexivity|exact Hpre|].
  exact (matchAnswer_first_exact (H:=Latin1) cafe_accent [str "cafe"] cafe_accent []
           keepAccents eq_refl Hpre).
Defined.

(** A typo: no answer matches exactly and the closest one is reported. *)
Lemma matchAnswer_closest_witness :
  Forall (λ a, normalized (H:=Latin1) noOptions (str "pinapple")
               ≠ normalized (H:=Latin1) noOptions a)
         [str "apple"; str "pineapple"] ∧
  ∃ m best,
    best ∈ [str "apple"; str "pineapple"] ∧
    editDistance (H:=Latin1) noOptions (str "pinapple") best = m ∧
    (∀ a, a ∈ [str "apple"; str "pineapple"] →
          m ≤ editDistance (H:=Latin1) noOptions (str "pinapple") a) ∧
    matchAnswer (H:=Latin1) (str "pinapple") [str "apple"; str "pineapple"] noOptions =
      {| isCorrect := bool_decide (Z.of_nat m ≤ tolerance noOptions)%Z;
         isExact := false;
         distance := Finite m;
         matchedAnswer :=
           if bool_decide (Z.of_nat m ≤ tolerance noOptions)%Z
           then Some best else None |}.
Proof.
  assert (Forall (λ a, normalized (H:=Latin1) noOptions (str "pinapple")
                       ≠ normalized (H:=Latin1) noOptions a)
                 [str "apple"; str "pineapple"]) as Hne.
  { repeat constructor; vm_compute; discriminate. }
  split; [exact Hne|].
  exact (matchAnswer_closest (H:=Latin1) (str "pinapple") (str "apple")
           [str "pineapple"] noOptions Hne).
Defined.

(** ** Shuffling *)

Section RandFacts.
Lemma run_bind {A B} (m : Rand A) (k : A → Rand B) t :
  bind m k t = k (fst (m t)) (snd (m t)).
Proof. unfold bind. by destruct (m t). Qed.

Lemma run_ret {A} (x : A) t : ret x t = (x, t).
Proof. reflexivity. Qed.

(** A draw is below 1, and [Math.floor(r * n)] an index below [n]. *)
Lemma random_lt t : (fst (random t) < 2 ^ 53)%N.
Proof. unfold random. cbn [fst]. by apply N.mod_lt. Qed.

Lemma floorTimes_lt r n : (r < 2 ^ 53)%N → 0 < n → floorTimes r n < n.
Proof.
  intros Hr Hn. unfold floorTimes.
  assert (r * N.of_nat n / 2 ^ 53 < N.of_nat n)%N; [|lia].
  apply N.Div0.div_lt_upper_bound. nia.
Qed.
End RandFacts.

(** Running a computation on a tape: unfold the binds from the left. *)
Ltac run_rand := unfold valueOn; rewrite ?run_bind, ?run_ret; cbn [fst snd].

Section ShuffleFacts.
Context {A : Type}.
Implicit Types (l : list A).

Lemma insert_cons_Permutation l j x y :
  l !! j = Some y → y :: <[j := x]> l ≡ₚ x :: l.
Proof.
  revert j. induction l as [|a l IH]; intros [|j] Hj; simplify_eq/=.
  - apply Permutation_swap.
  - etrans; [apply Permutation_swap|].
    etrans; [|apply Permutation_swap]. f_equiv. by apply IH.
Qed.

Lemma swap_Permutation i j l : swap i j l ≡ₚ l.
Proof.
  unfold swap.
  destruct (l !! i) as [x|] eqn:Hi; [|done].
  destruct (l !! j) as [y|] eqn:Hj; [|done].
  revert i j Hi Hj. induction l as [|a l IH]; intros [|i] [|j] Hi Hj;
    simplify_eq/=; try done.
  - by apply insert_cons_Permutation.
  - by apply insert_cons_Permutation.
  - f_equiv. by apply IH.
Qed.

Lemma shuffleFrom_Permutation i l t : fst (shuffleFrom i l t) ≡ₚ l.
Proof.
  revert l t. induction i as [|i IH]; intros l t; simpl; [done|].
  rewrite run_bind. simpl. rewrite IH. apply swap_Permutation.
Qed.

(** [shuffle] returns a permutation of its argument. *)
Lemma shuffle_Permutation l t : fst (shuffle l t) ≡ₚ l.
Proof. apply shuffleFrom_Permutation. Qed.

Lemma shuffle_length l t : length (fst (shuffle l t)) = length l.
Proof. by rewrite shuffle_Permutation. Qed.

Lemma shuffle_short l t : length l ≤ 1 → fst (shuffle l t) = l.
Proof.
  intros Hl. unfold shuffle. by replace (length l - 1) with 0 by lia.
Qed.
End ShuffleFacts.

(** ** The generators *)

Section GeneratorFacts.
Context `{Runtime}.

Lemma forEach_length {X Q} (body : list Q → X → Rand (list Q)) k acc (l : list X) t :
  (∀ acc' x t', length (fst (body acc' x t')) = length acc' + k) →
  length (fst (forEach body acc l t)) = length acc + k * length l.
Proof.
  intros Hbody. revert acc t.
  induction l as [|x l IH]; intros acc t; cbn [forEach]; run_rand.
  - cbn [length]. lia.
  - rewrite IH, Hbody. cbn [length]. lia.
Qed.

Lemma forEach_Forall {X Q} (P : Q → Prop) (body : list Q → X → Rand (list Q))
    acc (l : list X) t :
  (∀ acc' x t', Forall P acc' → x ∈ l → Forall P (fst (body acc' x t'))) →
  Forall P acc → Forall P (fst (forEach body acc l t)).
Proof.
  revert acc t. induction l as [|x l IH]; intros acc t Hbody Hacc;
    cbn [forEach]; run_rand.
  - done.
  - apply IH.
    + intros acc' x' t' Hacc' Hx'. apply Hbody; [done|by apply list_elem_of_further].
    + apply Hbody; [done|apply list_elem_of_here].
Qed.

Lemma newChoice_fields flag text t :
  Choice.text (fst (newChoice flag text t)) = text ∧
  Choice.isCorrect (fst (newChoice flag text t)) = flag.
Proof. unfold newChoice. by run_rand. Qed.

Lemma mapRand_newChoice flag texts t :
  map Choice.text (fst (mapRand (newChoice flag) texts t)) = texts ∧
  Forall (λ o, Choice.isCorrect o = flag) (fst (mapRand (newChoice flag) texts t)).
Proof.
  revert t. induction texts as [|text texts IH]; intros t.
  - done.
  - cbn [mapRand]. run_rand.
    destruct (IH (snd (newChoice flag text t))) as [Htexts Hflags].
    destruct (newChoice_fields flag text t) as [Htext Hflag].
    split.
    + rewrite map_cons, Htexts. by f_equal.
    + by constructor.
Qed.

Lemma otherCardsOf_self c : otherCardsOf c [c] = [].
Proof.
  unfold otherCardsOf. by rewrite filter_cons_False by (intros Hne; by apply Hne).
Qed.

Lemma otherCardsOf_spec card' allCards c :
  c ∈ otherCardsOf card' allCards ↔ Card.id c ≠ Card.id card' ∧ c ∈ allCards.
Proof. unfold otherCardsOf. by rewrite list_elem_of_filter. Qed.

Lemma no_correct_among_wrong (wrongOptions : list Choice.t) :
  Forall (λ o, Choice.isCorrect o = false) wrongOptions →
  filter (λ o, Choice.isCorrect o = true) wrongOptions = [].
Proof.
  induction 1 as [|o l Ho _ IH]; [done|].
  rewrite filter_cons_False by congruence. done.
Qed.

Import Learn.

(** The options of a multiple-choice question are a permutation of the
    correct option followed by the distractors. *)
Lemma createQuestion_options card' allCards dir t :
  ∃ os correctOption wrongOptions wrongCards,
    options (fst (createQuestion card' allCards dir MultipleChoiceQ t)) = Some os ∧
    os ≡ₚ correctOption :: wrongOptions ∧
    Choice.text correctOption = answerSide dir card' ∧
    Choice.isCorrect correctOption = true ∧
    Forall (λ o, Choice.isCorrect o = false) wrongOptions ∧
    map Choice.text wrongOptions = map (answerSide dir) wrongCards ∧
    wrongCards ⊆ otherCardsOf card' allCards ∧
    length wrongCards = 3 `min` length (otherCardsOf card' allCards).
Proof.
  unfold createQuestion. run_rand. cbn [options].
  set (t1 := snd (shuffle (otherCardsOf card' allCards) t)).
  set (shuffled := fst (shuffle (otherCardsOf card' allCards) t)).
  set (wrongCards := take (3 `min` length (otherCardsOf card' allCards)) shuffled).
  set (t2 := snd (newChoice true (answerSide dir card') t1)).
  set (correctOption := fst (newChoice true (answerSide dir card') t1)).
  set (wrong := mapRand (newChoice false) (map (answerSide dir) wrongCards) t2).
  eexists _, correctOption, (fst wrong), wrongCards.
  destruct (mapRand_newChoice false (map (answerSide dir) wrongCards) t2)
    as [Htexts Hflags].
  destruct (newChoice_fields true (answerSide dir card') t1) as [Htext Hflag].
  assert (shuffled ≡ₚ otherCardsOf card' allCards) as Hperm
    by apply shuffle_Permutation.
  split_and!; try done.
  - apply shuffle_Permutation.
  - intros c Hc. rewrite <- Hperm. eapply subseteq_take, Hc.
  - unfold wrongCards. rewrite length_take, Hperm. lia.
Qed.

(** What [createQuestion] guarantees about the options of a multiple-choice
    question, for every card list: one option more than the distractors,
    which are at most three and as many as there are other cards; exactly
    one correct option, whose text is the answer; every other option shows
    the answer side of a card of the list with another id. *)
Lemma createQuestion_option_shape card' allCards dir t :
  ∃ os,
    options (valueOn t (createQuestion card' allCards dir MultipleChoiceQ)) = Some os ∧
    length os = 1 + 3 `min` length (otherCardsOf card' allCards) ∧
    length (filter (λ o, Choice.isCorrect o = true) os) = 1 ∧
    (∀ o, o ∈ os → Choice.isCorrect o = true → Choice.text o = answerSide dir card') ∧
    (∀ o, o ∈ os → Choice.isCorrect o = false →
       ∃ c, c ∈ allCards ∧ Card.id c ≠ Card.id card' ∧
            Choice.text o = answerSide dir c).
Proof.
  destruct (createQuestion_options card' allCards dir t)
    as (os & co & wo & wc & Hos & Hperm & Htext & Hflag & Hwrong & Htexts & Hsub & Hlen).
  exists os. split_and!; [done| | | |].
  - rewrite Hperm, <- Hlen. cbn [length].
    rewrite <- (length_map (answerSide dir) wc), <- Htexts, length_map. lia.
  - rewrite Hperm, filter_cons_True by done.
    by rewrite no_correct_among_wrong.
  - intros o Ho Hcorrect. rewrite Hperm in Ho.
    apply elem_of_cons in Ho as [->|Ho]; [done|].
    rewrite list.Forall_forall in Hwrong. specialize (Hwrong o Ho). congruence.
  - intros o Ho Hcorrect. rewrite Hperm in Ho.
    apply elem_of_cons in Ho as [->|Ho]; [congruence|].
    assert (Choice.text o ∈ map (answerSide dir) wc) as Hin.
    { rewrite <- Htexts. by apply list_elem_of_fmap_2. }
    apply list_elem_of_fmap in Hin as (c & Hc & Hcin).
    exists c. apply Hsub, otherCardsOf_spec in Hcin as [Hid Hcin]. done.
Qed.

(** With a second card of another id there are at least two options, and
    never more than four. *)
Lemma createQuestion_option_count card' other allCards dir t :
  other ∈ allCards → Card.id other ≠ Card.id card' →
  ∃ os,
    options (valueOn t (createQuestion card' allCards dir MultipleChoiceQ)) = Some os ∧
    2 ≤ length os ≤ 4.
Proof.
  intros Hin Hid.
  destruct (createQuestion_option_shape card' allCards dir t) as (os & Hos & Hlen & _).
  exists os. split; [done|].
  assert (other ∈ otherCardsOf card' allCards) as Hother
    by by apply otherCardsOf_spec.
  destruct (otherCardsOf card' allCards) as [|c cs]; [by apply elem_of_nil in Hother|].
  cbn [length] in Hlen. lia.
Qed.

Lemma createQuestion_single_card c dir t :
  length <$> options (valueOn t (createQuestion c [c] dir MultipleChoiceQ)) = Some 1.
Proof.
  destruct (createQuestion_option_shape c [c] dir t) as (os & -> & Hlen & _).
  cbn [fmap option_fmap option_map]. by rewrite Hlen, otherCardsOf_self.
Qed.

Lemma createQuestion_mode card' allCards dir mode' t :
  mode (valueOn t (createQuestion card' allCards dir mode')) = mode'.
Proof. unfold createQuestion. destruct mode'; by run_rand. Qed.

Lemma generateQuestions_single_card c t :
  Forall (λ q, mode q = MultipleChoiceQ ∧ length <$> options q = Some 1)
         (valueOn t (generateQuestions [c] MultipleChoice)).
Proof.
  unfold generateQuestions. run_rand. rewrite shuffle_Permutation.
  apply forEach_Forall; [|constructor].
  intros acc x t' Hacc Hx. unfold pushQuestions. run_rand.
  rewrite (shuffle_short [c]) in * by done.
  apply list_elem_of_singleton in Hx as ->.
  rewrite !Forall_app. split_and!; [done| |].
  - constructor; [|done]. split; [apply createQuestion_mode|].
    apply createQuestion_single_card.
  - constructor; [|done]. split; [apply createQuestion_mode|].
    apply createQuestion_single_card.
Qed.

Lemma generateQuestions_length cards mode' t :
  length (valueOn t (generateQuestions cards mode')) = 2 * length cards.
Proof.
  unfold generateQuestions. run_rand. rewrite shuffle_length.
  rewrite (forEach_length _ 2).
  - rewrite shuffle_length. cbn [length]. lia.
  - intros acc x t'. unfold pushQuestions. run_rand.
    rewrite !length_app. cbn [length]. lia.
Qed.

(** C7. The accepted answers of a question are the back text followed by
    the card's alternatives when the back is the answer (front to back),
    and the front text alone when the front is the answer (back to front);
    this holds in both modes, type-answer in particular. *)
Theorem createQuestion_correctAnswers card' allCards mode' t :
  correctAnswers (valueOn t (createQuestion card' allCards FrontToBack mode'))
    = Back.text (Card.back card')
      :: default [] (Back.alternatives (Card.back card')) ∧
  correctAnswers (valueOn t (createQuestion card' allCards BackToFront mode'))
    = [Front.text (Card.front card')].
Proof. unfold createQuestion. destruct mode'; by run_rand. Qed.

Import QuestionGenerator.

Lemma generateQuestion_single_card c dir n t :
  length (QuestionGenerator.options
            (question (valueOn t (generateQuestion c [c] dir n)))) = 1.
Proof.
  unfold generateQuestion. rewrite otherCardsOf_self. run_rand.
  rewrite (shuffle_short []) by (cbn [length]; lia).
  unfold sliceTo. rewrite take_nil. cbn [map mapRand]. run_rand.
  by rewrite shuffle_short by (cbn [length]; lia).
Qed.

Lemma generateMultipleChoiceQuestionsFromCards_length cards opts t :
  length (valueOn t (generateMultipleChoiceQuestionsFromCards cards opts))
  = if default true (bidirectional opts) then 2 * length cards else length cards.
Proof.
  unfold generateMultipleChoiceQuestionsFromCards. run_rand.
  set (k := if default true (bidirectional opts) then 2 else 1).
  assert (∀ cardList t', length (fst
            (forEach (QuestionGenerator.pushQuestions cardList
               (default 4%Z (numOptions opts)) (default true (bidirectional opts)))
               [] cardList t')) = k * length cardList) as Hloop.
  { intros cardList t'. rewrite (forEach_length _ k); [done|].
    intros acc x t''. unfold QuestionGenerator.pushQuestions, k. run_rand.
    destruct (default true (bidirectional opts)); run_rand;
      rewrite !length_app; cbn [length]; lia. }
  assert (∀ {X} (l : list X) t',
            length (fst ((if default true (shouldShuffle opts)
                          then shuffle l else ret l) t')) = length l) as Hshuffle.
  { intros X l t'. destruct (default true (shouldShuffle opts));
      [apply shuffle_length|done]. }
  rewrite Hshuffle, Hloop, Hshuffle.
  unfold k. destruct (default true (bidirectional opts)); lia.
Qed.

(** C3. On a quiz of one card both generators build multiple-choice
    questions with a single option, the correct one: there is no other
    card to draw a distractor from, and nothing pads the options to two. *)
Theorem single_card_quiz_offers_one_option c dir n t :
  Forall (λ q, mode q = MultipleChoiceQ ∧ length <$> Learn.options q = Some 1)
         (valueOn t (generateQuestions [c] MultipleChoice)) ∧
  length (valueOn t (generateQuestions [c] MultipleChoice)) = 2 ∧
  length (QuestionGenerator.options
            (question (valueOn t (generateQuestion c [c] dir n)))) = 1.
Proof.
  split_and!.
  - apply generateQuestions_single_card.
  - by rewrite generateQuestions_length.
  - apply generateQuestion_single_card.
Qed.

End GeneratorFacts.

(** ** The session *)

Import Learn SessionSpec.

Section SessionFacts.
Context `{Runtime}.

(** The last [if] of [handleMultipleChoiceKey] keeps the state or records
    an answer; the option it reads is always there. *)
Lemma confirmOption_cases k q state :
  confirmOption k q state = Some state ∨
  ∃ z o, k = Some z ∧ answered state = false ∧
         confirmOption k q state
           = Some (recordAnswer (Choice.isCorrect o) q (withSelectedOption z state)).
Proof.
  unfold confirmOption. destruct k as [z|]; [|by left].
  destruct (bool_decide (0 ≤ z)%Z) eqn:H0; [|by left].
  destruct (bool_decide (z < Z.of_nat (numOptionsOf q))%Z) eqn:H1; [|by left].
  destruct (answered state) eqn:Hans; [by left|]. simpl.
  apply bool_decide_eq_true in H0, H1. unfold numOptionsOf in H1.
  destruct (options q) as [os|]; simpl in *; [|lia].
  destruct (os !! Z.to_nat z) as [o|] eqn:Ho.
  - right. by exists z, o.
  - apply lookup_ge_None in Ho. lia.
Qed.

Lemma confirmOption_out_of_range k q state :
  (k < 0 ∨ Z.of_nat (numOptionsOf q) ≤ k)%Z →
  confirmOption (Some k) q state = Some state.
Proof.
  intros Hk. unfold confirmOption.
  destruct (bool_decide (0 ≤ k)%Z) eqn:H0; [|done].
  destruct (bool_decide (k < Z.of_nat (numOptionsOf q))%Z) eqn:H1; [|done].
  apply bool_decide_eq_true in H0, H1. lia.
Qed.

Lemma handled_confirmOption k q state state' :
  confirmOption k q state = Some state' → handled state state'.
Proof.
  destruct (confirmOption_cases k q state) as [->|(z & o & -> & _ & ->)];
    intros [= <-].
  - by apply handled_quiet.
  - by apply (handled_answer _ _ (Choice.isCorrect o) q (withSelectedOption z state)).
Qed.

Lemma handleMultipleChoiceKey_total event state q :
  questions state !! currentIndex state = Some q →
  ∃ state', handleMultipleChoiceKey event state = Some state' ∧ handled state state'.
Proof.
  intros Hq. unfold handleMultipleChoiceKey. rewrite Hq.
  assert (∀ k, ∃ state', confirmOption k q state = Some state' ∧ handled state state')
    as Hconfirm.
  { intros k. destruct (confirmOption k q state) as [state'|] eqn:Hc.
    - exists state'. split; [done|by eapply handled_confirmOption].
    - destruct (confirmOption_cases k q state) as [?|(z & o & _ & _ & ?)]; congruence. }
  repeat case_match; try apply Hconfirm;
    eexists; (split; [done|by apply handled_quiet]).
Qed.

Lemma handleTypeAnswerKey_total event state q :
  questions state !! currentIndex state = Some q →
  ∃ state', handleTypeAnswerKey event state = Some state' ∧ handled state state'.
Proof.
  intros Hq. unfold handleTypeAnswerKey. rewrite Hq.
  repeat case_match; eexists; (split; [done|]);
    try (by apply handled_quiet).
  by eapply (handled_answer _ _ _ q state).
Qed.

(** [handleKey] does one of three things: it resolves the command once the
    questions are used up, it moves on from a shown result, or it hands the
    key to the handler of the question's mode. *)
Lemma handleKey_cases event state :
  (length (questions state) ≤ currentIndex state ∧
     handleKey event state = Resolved state) ∨
  (currentIndex state < length (questions state) ∧ showingResult state = true ∧
     handleKey event state = Continue (advance state)) ∨
  (currentIndex state < length (questions state) ∧ showingResult state = false ∧
     ∃ state', handleKey event state = Continue state' ∧ handled state state').
Proof.
  unfold handleKey. case_bool_decide as Hdone; [by left|right].
  destruct (showingResult state) eqn:Hshow; [left; split_and!; [lia|done..]|right].
  split_and!; [lia|done|].
  destruct (questions state !! currentIndex state) as [q|] eqn:Hq.
  - destruct (mode q).
    + destruct (handleMultipleChoiceKey_total event state q Hq) as (state' & -> & Hh).
      by exists state'.
    + destruct (handleTypeAnswerKey_total event state q Hq) as (state' & -> & Hh).
      by exists state'.
  - apply lookup_ge_None in Hq. lia.
Qed.

(** No key press makes the handler throw. *)
Lemma handleKey_never_throws event state : handleKey event state ≠ Throw.
Proof.
  destruct (handleKey_cases event state)
    as [[_ ->]|[(_ & _ & ->)|(_ & _ & state' & -> & _)]]; done.
Qed.

(** A key press that enters ShowingResult adds one to exactly one counter;
    every other key press leaves both alone. *)
Lemma handleKey_counters event state state' :
  handleKey event state = Continue state' →
  (finalizing state state' ∧ counted state state') ∨
  (¬ finalizing state state' ∧
     correct state' = correct state ∧ incorrect state' = incorrect state).
Proof.
  intros Hstep.
  destruct (handleKey_cases event state)
    as [[_ Hk]|[(_ & Hshow & Hk)|(_ & Hshow & s' & Hk & Hh)]];
    rewrite Hk in Hstep; simplify_eq.
  - right. split; [|done]. intros [Hs _]. congruence.
  - destruct Hh as [_ _ Hc Hi Hs|wasCorrect q s _ _ Hc Hi ->].
    + right. split; [|done]. intros [_ Hs']. congruence.
    + left. split; [done|]. destruct wasCorrect.
      * apply counted_correct; simpl; congruence.
      * apply counted_incorrect; simpl; congruence.
Qed.

Lemma counters_invariant_initial qs : counters_invariant qs (initialState qs).
Proof. unfold counters_invariant. simpl. split_and!; [done|done|lia]. Qed.

Lemma counters_invariant_step qs event state state' :
  counters_invariant qs state → handleKey event state = Continue state' →
  counters_invariant qs state'.
Proof.
  intros (Hqs & Hsum & Hle) Hstep.
  destruct (handleKey_cases event state)
    as [[_ Hk]|[(Hlt & Hshow & Hk)|(Hlt & Hshow & s' & Hk & Hh)]];
    rewrite Hk in Hstep; simplify_eq.
  - rewrite Hshow in *. unfold counters_invariant. simpl. split_and!; [done|lia|lia].
  - rewrite Hshow in *.
    destruct Hh as [Hq Hidx Hc Hi Hs|wasCorrect q s Hq Hidx Hc Hi ->];
      unfold counters_invariant.
    + rewrite Hq, Hidx, Hc, Hi, Hs, Hshow. split_and!; [done|lia|lia].
    + simpl. rewrite Hq, Hidx, Hc, Hi. split_and!; [done| |lia].
      destruct wasCorrect; lia.
Qed.

Lemma reachable_invariant qs state :
  reachable qs state → counters_invariant qs state.
Proof.
  induction 1 as [|state event state' _ IH Hstep].
  - apply counters_invariant_initial.
  - by eapply counters_invariant_step.
Qed.

(** Every sequence of key presses runs to a state, without a throw. *)
Lemma runKeys_reachable qs events state :
  reachable qs state →
  ∃ state', (runKeys events state = Continue state' ∨
             runKeys events state = Resolved state') ∧ reachable qs state'.
Proof.
  revert state. induction events as [|event events IH]; intros state Hreach; simpl.
  - exists state. by split; [left|].
  - destruct (handleKey_cases event state)
      as [[_ Hk]|[(_ & _ & Hk)|(_ & _ & s' & Hk & _)]]; rewrite Hk.
    + exists state. by split; [right|].
    + apply IH. by eapply reachable_key.
    + apply IH. by eapply reachable_key.
Qed.

(** Whatever keys are pressed in a session started on the questions
    [qs], the session reaches a state, without a throw, in which
    [correct + incorrect] is at most the number of questions, and equal to
    it once the index has reached that number; and from that state a key
    press that enters ShowingResult adds one to exactly one of the two
    counters, while any other key press leaves both as they are. *)
Lemma session_counters qs events :
  ∃ state,
    (runKeys events (initialState qs) = Continue state ∨
     runKeys events (initialState qs) = Resolved state) ∧
    correct state + incorrect state ≤ length qs ∧
    (currentIndex state = length qs →
       correct state + incorrect state = length qs) ∧
    ∀ event state',
      handleKey event state = Continue state' →
      (finalizing state state' ∧ counted state state') ∨
      (¬ finalizing state state' ∧
         correct state' = correct state ∧ incorrect state' = incorrect state).
Proof.
  destruct (runKeys_reachable qs events (initialState qs) (reachable_initial qs))
    as (state & Hrun & Hreach).
  apply reachable_invariant in Hreach as (Hqs & Hsum & Hle).
  exists state. split_and!; [done|lia| |].
  - intros Hidx. destruct (showingResult state); lia.
  - intros event state'. apply handleKey_counters.
Qed.

(** The keys that finalize: Enter on a buffer that is not blank grades the
    typed answer, and a key that names an option in range, while nothing is
    answered, grades that option. *)
Lemma submit_typed_records event state q :
  awaiting state q → mode q = TypeAnswerQ →
  isReturnKey (toLowerCase (name event)) = true →
  trim (typedAnswer state) ≠ [] →
  ∃ wasCorrect, handleKey event state = Continue (recordAnswer wasCorrect q state).
Proof.
  intros [Hshow Hq] Hmode Hkey Hblank.
  assert (currentIndex state < length (questions state)) as Hlt
    by (by eapply lookup_lt_Some).
  unfold handleKey. rewrite bool_decide_eq_false_2 by lia.
  rewrite Hshow, Hq, Hmode. unfold handleTypeAnswerKey. rewrite Hq, Hkey.
  assert (bool_decide (toLowerCase (name event) = str "backspace") = false) as ->.
  { unfold isReturnKey in Hkey. apply orb_true_iff in Hkey.
    destruct Hkey as [->%bool_decide_eq_true| ->%bool_decide_eq_true];
      by vm_compute. }
  rewrite bool_decide_eq_true_2.
  - by eexists.
  - destruct (trim (typedAnswer state)); [done|cbn [length]; lia].
Qed.

Lemma return_key_is_no_other_key keyName :
  isReturnKey keyName = true →
  bool_decide (keyName = str "backspace") = false ∧
  bool_decide (keyName = str "up") = false ∧
  bool_decide (keyName = str "down") = false ∧
  JS.leb (str "1") keyName && JS.leb keyName (str "4") = false ∧
  JS.leb (str "a") keyName && JS.leb keyName (str "d") = false.
Proof.
  unfold isReturnKey. intros Hkey. apply orb_true_iff in Hkey.
  destruct Hkey as [->%bool_decide_eq_true| ->%bool_decide_eq_true];
    by vm_compute.
Qed.

Lemma direct_key_option c k :
  directOption c = Some k →
  (JS.leb (str "1") [c] && JS.leb [c] (str "4") = true ∧
     parseInt [c] = Some (k + 1)%Z) ∨
  (JS.leb (str "1") [c] && JS.leb [c] (str "4") = false ∧
     JS.leb (str "a") [c] && JS.leb [c] (str "d") = true ∧
     Z.of_N c - 97 = k)%Z.
Proof.
  unfold directOption. intros Hk.
  destruct ((49 <=? c) && (c <=? 52))%N eqn:Hdigit.
  - apply andb_true_iff in Hdigit as [?%N.leb_le ?%N.leb_le].
    assert (c = 49 ∨ c = 50 ∨ c = 51 ∨ c = 52)%N as Hc by lia.
    left. simplify_eq. destruct Hc as [->|[->|[->| ->]]]; by vm_compute.
  - destruct ((97 <=? c) && (c <=? 100))%N eqn:Hletter; [|done].
    apply andb_true_iff in Hletter as [?%N.leb_le ?%N.leb_le].
    assert (c = 97 ∨ c = 98 ∨ c = 99 ∨ c = 100)%N as Hc by lia.
    right. simplify_eq. destruct Hc as [->|[->|[->| ->]]]; by vm_compute.
Qed.

Lemma direct_key_records event state q c k :
  awaiting state q → mode q = MultipleChoiceQ → answered state = false →
  toLowerCase (name event) = [c] → directOption c = Some k →
  (k < Z.of_nat (numOptionsOf q))%Z →
  ∃ o, options q ≫= (λ os, os !! Z.to_nat k) = Some o ∧
       handleKey event state
       = Continue (recordAnswer (Choice.isCorrect o) q (withSelectedOption k state)).
Proof.
  intros [Hshow Hq] Hmode Hans Hkey Hdirect Hk.
  assert (currentIndex state < length (questions state)) as Hlt
    by (by eapply lookup_lt_Some).
  assert (0 ≤ k)%Z as Hk0.
  { unfold directOption in Hdirect. repeat case_match; simplify_eq;
      repeat match goal with
             | Hb : (_ && _)%bool = true |- _ =>
                 apply andb_true_iff in Hb as [?%N.leb_le ?%N.leb_le]
             end; lia. }
  assert (confirmOption (Some k) q state
          = Some (recordAnswer
                    (Choice.isCorrect
                       (default {| Choice.id := []; Choice.text := [];
                                   Choice.isCorrect := false |}
                                (options q ≫= (λ os, os !! Z.to_nat k))))
                    q (withSelectedOption k state))
          ∧ is_Some (options q ≫= (λ os, os !! Z.to_nat k))) as [Hconfirm [o Ho]].
  { unfold confirmOption.
    rewrite !bool_decide_eq_true_2 by done. rewrite Hans. cbn [andb negb].
    unfold numOptionsOf in Hk. destruct (options q) as [os|]; simpl in *; [|lia].
    destruct (os !! Z.to_nat k) as [o|] eqn:Ho; [by eauto|].
    apply lookup_ge_None in Ho. lia. }
  exists o. split; [done|]. rewrite Ho in Hconfirm. cbn [default] in Hconfirm.
  unfold handleKey. rewrite bool_decide_eq_false_2 by lia.
  rewrite Hshow, Hq, Hmode. unfold handleMultipleChoiceKey. rewrite Hq, Hkey.
  destruct (direct_key_option c k Hdirect) as [[-> ->]|(-> & -> & Hc)];
    cbn [mbind option_bind].
  - replace (k + 1 - 1)%Z with k by lia. by rewrite Hconfirm.
  - cbn [lookup list_lookup mbind option_bind]. rewrite Hc. by rewrite Hconfirm.
Qed.

(** C8. While an answer is awaited, Enter on a typed answer that is blank
    once trimmed, Enter on a multiple-choice question with no option
    selected or with a selection past the last option, and a digit or
    letter that names an option past the last one all return normally and
    leave the whole state as it was: counters, index and scratch fields. *)
Theorem rejected_actions_change_nothing event state q :
  awaiting state q → rejected event state q →
  handleKey event state = Continue state.
Proof.
  intros [Hshow Hq] Hrej.
  assert (currentIndex state < length (questions state)) as Hlt
    by (by eapply lookup_lt_Some).
  unfold handleKey. rewrite bool_decide_eq_false_2 by lia. rewrite Hshow, Hq.
  destruct Hrej as [Hmode Hkey Hblank|Hmode Hkey Hsel|c k Hmode Hkey Hdirect Hk];
    rewrite Hmode.
  - unfold handleTypeAnswerKey. rewrite Hq, Hkey, Hblank.
    destruct (return_key_is_no_other_key _ Hkey) as (-> & _). done.
  - unfold handleMultipleChoiceKey. rewrite Hq, Hkey.
    destruct (return_key_is_no_other_key _ Hkey) as (_ & -> & -> & -> & ->).
    case_bool_decide; cbn [andb];
      by rewrite confirmOption_out_of_range by lia.
  - unfold handleMultipleChoiceKey. rewrite Hq, Hkey.
    destruct (direct_key_option c k Hdirect) as [[-> ->]|(-> & -> & Hc)];
      cbn [mbind option_bind].
    + replace (k + 1 - 1)%Z with k by lia.
      by rewrite confirmOption_out_of_range by lia.
    + cbn [lookup list_lookup mbind option_bind]. rewrite Hc.
      by rewrite confirmOption_out_of_range by lia.
Qed.

End SessionFacts.

(** Enter on the empty buffer of a fresh type-answer session. *)
Lemma rejected_actions_change_nothing_witness :
  awaiting (initialState [typedQuestion]) typedQuestion ∧
  rejected (H:=Latin1) returnKey (initialState [typedQuestion]) typedQuestion ∧
  handleKey (H:=Latin1) returnKey (initialState [typedQuestion])
    = Continue (initialState [typedQuestion]).
Proof.
  assert (awaiting (initialState [typedQuestion]) typedQuestion) as Hawait
    by (split; reflexivity).
  assert (rejected (H:=Latin1) returnKey (initialState [typedQuestion]) typedQuestion)
    as Hrej by (apply blank_submit; reflexivity).
  split_and!; [exact Hawait|exact Hrej|].
  exact (rejected_actions_change_nothing (H:=Latin1) returnKey
           (initialState [typedQuestion]) typedQuestion Hawait Hrej).
Defined.

(** ** The summary *)

Lemma summary_reads_counters state :
  summary state = summary (countersOnly (correct state) (incorrect state)).
Proof. reflexivity. Qed.

(** [total] is the sum of the counters, and the percentage of an empty
    session is 0. *)
Lemma summary_total state :
  total (summary state) = correct state + incorrect state ∧
  (correct state + incorrect state = 0 → percentage (summary state) = 0%Z).
Proof.
  split; [done|]. intros Hzero. unfold summary. cbn [percentage].
  by rewrite Hzero.
Qed.

Lemma agreesBelow_40 : agreesBelow 40 = true.
Proof. vm_compute. reflexivity. Qed.

(** On every session of fewer than 40 questions the percentage shown is the
    exact rounding of [100 * correct / total]. *)
Lemma summary_rounds_below_40 state :
  correct state + incorrect state < 40 →
  percentage (summary state)
  = roundedPercentage (correct state) (correct state + incorrect state).
Proof.
  intros Hlt. rewrite summary_reads_counters.
  pose proof agreesBelow_40 as Hall. unfold agreesBelow in Hall.
  rewrite forallb_forall in Hall.
  assert (In (correct state + incorrect state) (seq 0 40)) as Htotal
    by (apply in_seq; lia).
  specialize (Hall _ Htotal). rewrite forallb_forall in Hall.
  assert (In (correct state) (seq 0 (S (correct state + incorrect state)))) as Hcorrect
    by (apply in_seq; lia).
  specialize (Hall _ Hcorrect).
  replace (correct state + incorrect state - correct state)
    with (incorrect state) in Hall by lia.
  by apply Z.eqb_eq.
Qed.

(** C9. After 23 correct and 17 incorrect answers the summary has total 40
    and shows 57 percent: the double [23 / 40] times 100 falls just below
    57.5, while [round(100 * 23 / 40)] is 58. *)
Theorem summary_percentage_23_of_40 :
  total (summary (countersOnly 23 17)) = 40 ∧
  percentage (summary (countersOnly 23 17)) = 57%Z ∧
  roundedPercentage 23 40 = 58%Z ∧
  PrimFloat.ltb (toNumber 23 / toNumber 40 * 100)%float 57.5%float = true.
Proof. by vm_compute. Qed.


(* ===================================================================== *)
(** * Further properties of the code *)
(* ===================================================================== *)

(** ** [levenshteinDistance] as a distance *)

Section LevenshteinFacts.

Lemma levenshtein_sym a b i j : levenshtein a b i j = levenshtein b a j i.
Proof.
  revert j. induction i as [|i IHi]; intros j.
  - by rewrite levenshtein_0_r.
  - induction j as [|j IHj]; [done|].
    rewrite !levenshtein_S_S, IHi, IHj, (IHi (S j)).
    unfold mathMin3. repeat case_decide; try congruence; lia.
Qed.

Lemma levenshtein_upper a b i j : levenshtein a b i j ≤ i `max` j.
Proof.
  revert j. induction i as [|i IHi]; intros j; [simpl; lia|].
  induction j as [|j IHj]; [rewrite levenshtein_0_r; lia|].
  rewrite levenshtein_S_S. specialize (IHi j).
  unfold mathMin3. case_decide; lia.
Qed.

Lemma levenshtein_lower a b i j :
  i ≤ j + levenshtein a b i j ∧ j ≤ i + levenshtein a b i j.
Proof.
  revert j. induction i as [|i IHi]; intros j; [simpl; lia|].
  induction j as [|j IHj]; [rewrite levenshtein_0_r; lia|].
  rewrite levenshtein_S_S.
  pose proof (IHi j). pose proof (IHi (S j)).
  unfold mathMin3. case_decide; lia.
Qed.

Lemma levenshtein_refl (a : jsstring) n : n ≤ length a → levenshtein a a n n = 0.
Proof.
  induction n as [|n IH]; intros Hn; [done|].
  rewrite levenshtein_S_S, IH by lia.
  rewrite decide_True by done. unfold mathMin3. lia.
Qed.

Lemma charAt_inj (a b : jsstring) i j :
  i < length b → j < length a → charAt b i = charAt a j → b !! i = a !! j.
Proof.
  intros Hi Hj. unfold charAt.
  destruct (b !! i) as [x|] eqn:Hx; [|apply lookup_ge_None in Hx; lia].
  destruct (a !! j) as [y|] eqn:Hy; [|apply lookup_ge_None in Hy; lia].
  by intros [= ->].
Qed.

Lemma levenshtein_zero (a b : jsstring) i j :
  i ≤ length b → j ≤ length a → levenshtein a b i j = 0 → take i b = take j a.
Proof.
  revert j. induction i as [|i IHi]; intros j Hi Hj.
  - simpl. by intros ->.
  - destruct j as [|j]; [by rewrite levenshtein_0_r|].
    rewrite levenshtein_S_S. unfold mathMin3. intros Hzero.
    case_decide as Hchar; [|lia].
    apply charAt_inj in Hchar; [|lia..].
    destruct (lookup_lt_is_Some_2 b i) as [x Hx]; [lia|].
    pose proof (eq_trans (eq_sym Hchar) Hx) as Hy.
    rewrite (take_S_r b i x), (take_S_r a j x) by done.
    f_equal. apply IHi; lia.
Qed.

(** X1. [levenshteinDistance] is symmetric: the order of the two strings
    does not matter. *)
Theorem levenshteinDistance_symmetric a b :
  levenshteinDistance a b = levenshteinDistance b a.
Proof.
  rewrite !levenshteinDistance_levenshtein. apply levenshtein_sym.
Qed.

Lemma levenshteinDistance_zero_iff_lemma a b :
  levenshteinDistance a b = 0 ↔ a = b.
Proof.
  rewrite levenshteinDistance_levenshtein. split.
  - intros Hzero. apply levenshtein_zero in Hzero; [|done..].
    by rewrite !firstn_all in Hzero.
  - intros ->. by apply levenshtein_refl.
Qed.

(** X2. [levenshteinDistance] returns 0 exactly on two equal strings. *)
Theorem levenshteinDistance_zero_iff a b :
  levenshteinDistance a b = 0 ↔ a = b.
Proof. apply levenshteinDistance_zero_iff_lemma. Qed.

(** X3. The distance lies between the difference of the lengths and the
    greater length; against the empty string it is the length. *)
Theorem levenshteinDistance_bounds a b :
  length a - length b ≤ levenshteinDistance a b ∧
  length b - length a ≤ levenshteinDistance a b ∧
  levenshteinDistance a b ≤ length a `max` length b ∧
  levenshteinDistance a [] = length a ∧
  levenshteinDistance [] b = length b.
Proof.
  rewrite !levenshteinDistance_levenshtein.
  pose proof (levenshtein_lower a b (length b) (length a)).
  pose proof (levenshtein_upper a b (length b) (length a)).
  split_and!; try lia.
  - done.
  - cbn [length]. by rewrite levenshtein_0_r.
Qed.

End LevenshteinFacts.


(** ** What [matchAnswer] accepts *)

Section MatchAnswerFacts.
Context `{Runtime}.

(** A list either has no element with a decidable property, or splits at the
    first one that has it. *)
Lemma split_at_first {A} (P : A → Prop) `{∀ x, Decision (P x)} (l : list A) :
  Forall (λ x, ¬ P x) l ∨
  ∃ pre x post, l = pre ++ x :: post ∧ P x ∧ Forall (λ y, ¬ P y) pre.
Proof.
  induction l as [|x l IH]; [by left|].
  destruct (decide (P x)) as [Hx|Hx].
  - right. exists [], x, l. by split_and!.
  - destruct IH as [Hnone|(pre & y & post & -> & Hy & Hpre)].
    + left. by constructor.
    + right. exists (x :: pre), y, post. split_and!; [done|done|by constructor].
Qed.

(** The two ways [matchAnswer] ends: at the first exact match, or, with none,
    on the first answer at the least distance (on the initial result when
    there is no answer at all). *)
Lemma matchAnswer_cases input answers opts :
  (∃ pre answer post,
      answers = pre ++ answer :: post ∧
      normalized opts input = normalized opts answer ∧
      matchAnswer input answers opts = exactMatch answer) ∨
  (Forall (λ a, normalized opts input ≠ normalized opts a) answers ∧
   (answers = [] ∧
      matchAnswer input answers opts =
        {| isCorrect := false; isExact := false; distance := Infinity;
           matchedAnswer := None |}
    ∨ ∃ m best,
        best ∈ answers ∧ editDistance opts input best = m ∧
        (∀ a, a ∈ answers → m ≤ editDistance opts input a) ∧
        matchAnswer input answers opts = fuzzyMatch (tolerance opts) m best)).
Proof.
  destruct (split_at_first (λ a, normalized opts input = normalized opts a) answers)
    as [Hnone|(pre & answer & post & -> & Heq & Hpre)].
  - right. split; [done|].
    destruct answers as [|answer rest]; [by left|right].
    inversion Hnone as [|? ? Hfirst Hrest]; subst.
    destruct (matchLoop_fuzzy (default true (ignoreCase opts))
                (default true (ignoreAccents opts)) (tolerance opts)
                (normalized opts input) rest
                (levenshteinDistance (normalized opts input) (normalized opts answer))
                answer Hrest)
      as (m & best & Hbest & Hle & Hmin & Hloop).
    exists m, best. split_and!.
    + destruct Hbest as [[-> _]|[Hin _]];
        [apply list_elem_of_here|by apply list_elem_of_further].
    + unfold editDistance. rewrite <- levenshteinDistance_levenshtein.
      destruct Hbest as [[-> ->]|[_ Hd]]; done.
    + intros a [->|Hin]%elem_of_cons; unfold editDistance;
        rewrite <- levenshteinDistance_levenshtein; [done|by apply Hmin].
    + unfold matchAnswer. simpl matchLoop.
      fold (normalized opts input). fold (normalized opts answer).
      rewrite decide_False by done. exact Hloop.
  - left. exists pre, answer, post. split_and!; [done..|].
    unfold matchAnswer. by apply matchLoop_exact.
Qed.

(** X4. An input is graded correct exactly when some accepted answer has the
    same normalized form, or lies within [allowTypoDistance] edits of it. *)
Theorem matchAnswer_isCorrect_iff input answers opts :
  isCorrect (matchAnswer input answers opts) = true ↔
  ∃ a, a ∈ answers ∧
       (normalized opts input = normalized opts a ∨
        (Z.of_nat (editDistance opts input a) ≤ tolerance opts)%Z).
Proof.
  destruct (matchAnswer_cases input answers opts)
    as [(pre & answer & post & -> & Heq & ->)
       |[Hnone [[-> ->]|(m & best & Hbest & Hm & Hmin & ->)]]].
  - split; [|done]. intros _. exists answer. split; [|by left].
    apply elem_of_app. right. apply list_elem_of_here.
  - split; [done|]. intros (a & Ha & _). by apply elem_of_nil in Ha.
  - cbn [isCorrect fuzzyMatch]. rewrite bool_decide_eq_true. split.
    + intros Hle. exists best. split; [done|right]. by rewrite Hm.
    + intros (a & Ha & [Heq|Hle]).
      * rewrite list.Forall_forall in Hnone. by destruct (Hnone a Ha).
      * specialize (Hmin a Ha). lia.
Qed.

(** X5. The match is exact when some accepted answer has the normalized form
    of the input, and only then is the distance 0. *)
Theorem matchAnswer_isExact_iff input answers opts :
  (isExact (matchAnswer input answers opts) = true ↔
     ∃ a, a ∈ answers ∧ normalized opts input = normalized opts a) ∧
  (isExact (matchAnswer input answers opts) = true ↔
     distance (matchAnswer input answers opts) = Finite 0).
Proof.
  destruct (matchAnswer_cases input answers opts)
    as [(pre & answer & post & -> & Heq & ->)
       |[Hnone [[-> ->]|(m & best & Hbest & Hm & Hmin & ->)]]].
  - split; [|done]. split; [|done]. intros _. exists answer. split; [|done].
    apply elem_of_app. right. apply list_elem_of_here.
  - split; [|done]. split; [done|]. intros (a & Ha & _). by apply elem_of_nil in Ha.
  - cbn [isExact distance fuzzyMatch]. split; split; try done.
    + intros (a & Ha & Heq).
      rewrite list.Forall_forall in Hnone. by destruct (Hnone a Ha).
    + intros [= ->]. unfold editDistance in Hm.
      rewrite <- levenshteinDistance_levenshtein in Hm.
      apply levenshteinDistance_zero_iff_lemma in Hm.
      rewrite list.Forall_forall in Hnone. by destruct (Hnone best Hbest).
Qed.

(** X6. [matchedAnswer] is set exactly on a correct result, and it is then
    one of the accepted answers, as it was passed in. *)
Theorem matchAnswer_matchedAnswer input answers opts :
  (is_Some (matchedAnswer (matchAnswer input answers opts)) ↔
     isCorrect (matchAnswer input answers opts) = true) ∧
  (∀ a, matchedAnswer (matchAnswer input answers opts) = Some a → a ∈ answers).
Proof.
  destruct (matchAnswer_cases input answers opts)
    as [(pre & answer & post & -> & Heq & ->)
       |[Hnone [[-> ->]|(m & best & Hbest & Hm & Hmin & ->)]]].
  - split; [by split; eauto|]. intros a [= <-].
    apply elem_of_app. right. apply list_elem_of_here.
  - split; [|done]. split; [by intros [? ?]|done].
  - cbn [matchedAnswer isCorrect fuzzyMatch].
    case_bool_decide.
    + split; [by split; eauto|]. by intros a [= <-].
    + split; [|done]. split; [by intros [? ?]|done].
Qed.

End MatchAnswerFacts.

(** ** White space around a text *)

Section TrimFacts.

Lemma trimStart_whiteSpace pre s :
  Forall (λ c, isWhiteSpace c = true) pre → trimStart (pre ++ s) = trimStart s.
Proof. induction 1 as [|c pre Hc _ IH]; [done|]. simpl. by rewrite Hc. Qed.

Lemma trimStart_app s t :
  trimStart (s ++ t) = if decide (trimStart s = []) then trimStart t else trimStart s ++ t.
Proof.
  induction s as [|c s IH]; [done|]. simpl.
  destruct (isWhiteSpace c); [done|]. by rewrite decide_False.
Qed.

Lemma trimEnd_whiteSpace s post :
  Forall (λ c, isWhiteSpace c = true) post → trimEnd (s ++ post) = trimEnd s.
Proof.
  intros Hpost. unfold trimEnd. rewrite rev_app_distr.
  rewrite trimStart_whiteSpace; [done|]. by apply Forall_rev.
Qed.

Lemma trimStart_all_whiteSpace post :
  Forall (λ c, isWhiteSpace c = true) post → trimStart post = [].
Proof.
  intros Hpost. rewrite <- (app_nil_r post). by rewrite trimStart_whiteSpace.
Qed.

Lemma trim_whiteSpace pre s post :
  Forall (λ c, isWhiteSpace c = true) pre →
  Forall (λ c, isWhiteSpace c = true) post →
  trim (pre ++ s ++ post) = trim s.
Proof.
  intros Hpre Hpost. unfold trim.
  rewrite trimStart_whiteSpace by done. rewrite trimStart_app.
  case_decide as Hs.
  - rewrite Hs, trimStart_all_whiteSpace by done. done.
  - by rewrite trimEnd_whiteSpace.
Qed.

Context `{Runtime}.

(** X7. White space before and after the input never changes the result,
    under every options object. *)
Theorem matchAnswer_ignores_surrounding_whiteSpace pre input post answers opts :
  Forall (λ c, isWhiteSpace c = true) pre →
  Forall (λ c, isWhiteSpace c = true) post →
  matchAnswer (pre ++ input ++ post) answers opts = matchAnswer input answers opts.
Proof.
  intros Hpre Hpost. unfold matchAnswer.
  assert (∀ ic ia, prepare ic ia (pre ++ input ++ post) = prepare ic ia input) as ->;
    [|done].
  intros ic ia. unfold prepare, normalizeText. by rewrite trim_whiteSpace.
Qed.

End TrimFacts.

Lemma matchAnswer_ignores_surrounding_whiteSpace_witness :
  Forall (λ c, isWhiteSpace c = true) (str "  ") ∧
  Forall (λ c, isWhiteSpace c = true) [9; 10]%N ∧
  matchAnswer (H:=Latin1) (str "  " ++ str "Hola" ++ [9; 10]%N) [str "hola"] noOptions
  = matchAnswer (H:=Latin1) (str "Hola") [str "hola"] noOptions.
Proof.
  assert (Forall (λ c, isWhiteSpace c = true) (str "  ")) as Hpre
    by (repeat constructor).
  assert (Forall (λ c, isWhiteSpace c = true) [9; 10]%N) as Hpost
    by (repeat constructor).
  split_and!; [exact Hpre|exact Hpost|].
  exact (matchAnswer_ignores_surrounding_whiteSpace (H:=Latin1) (str "  ") (str "Hola")
           [9; 10]%N [str "hola"] noOptions Hpre Hpost).
Defined.


(** ** [findQuizById] *)

Import QuizLoader QuizLoaderSpec.

Section FindFacts.

Lemma find_None_Forall {A} (f : A → bool) (l : list A) :
  find f l = None ↔ Forall (λ x, f x = false) l.
Proof.
  induction l as [|x l IH]; simpl; [by split|].
  destruct (f x) eqn:Hx.
  - split; [done|]. inversion 1; congruence.
  - rewrite IH. split; [by constructor|by inversion 1].
Qed.

(** [find] returns the first element that passes the test. *)
Lemma find_Some_first {A} (f : A → bool) (l : list A) x :
  find f l = Some x →
  ∃ pre post, l = pre ++ x :: post ∧ f x = true ∧ Forall (λ y, f y = false) pre.
Proof.
  induction l as [|y l IH]; simpl; [done|].
  destruct (f y) eqn:Hy.
  - intros [= ->]. by exists [], l.
  - intros (pre & post & -> & Hx & Hpre)%IH.
    exists (y :: pre), post. split_and!; [done|done|by constructor].
Qed.

Lemma startsWith_spec s p : startsWith s p = true ↔ ∃ post, s = p ++ post.
Proof.
  unfold startsWith. rewrite bool_decide_eq_true. split.
  - intros Hp. exists (drop (length p) s). by rewrite <- Hp at 1; rewrite take_drop.
  - intros [post ->]. by rewrite take_app_length.
Qed.

Lemma includes_spec s p : includes s p = true ↔ occursIn p s.
Proof.
  unfold occursIn. induction s as [|c s IH].
  - cbn [includes]. rewrite orb_false_r, startsWith_spec. split.
    + intros [post Hs]. by exists [], post.
    + intros (pre & post & Hs). destruct pre; [by exists post|done].
  - cbn [includes]. rewrite orb_true_iff, startsWith_spec, IH. split.
    + intros [[post ->]|(pre & post & ->)]; [by exists [], post|].
      by exists (c :: pre), post.
    + intros ([|c' pre] & post & Hs); [left; by exists post|right].
      simplify_eq/=. by exists pre, post.
Qed.

Lemma startsWith_includes s p : startsWith s p = true → includes s p = true.
Proof. intros Hp. destruct s; cbn [includes]; by rewrite Hp. Qed.

Lemma startsWith_refl s : startsWith s s = true.
Proof. apply startsWith_spec. exists []. by rewrite app_nil_r. Qed.

Context `{Runtime}.

(** X8. The search fails exactly when the lowercased search text occurs in
    no lowercased id; a quiz it returns is one of the list and its
    lowercased id contains the lowercased search text. *)
Theorem findQuizById_found_iff quizzes searchId :
  (findQuizById quizzes searchId = None ↔
     Forall (λ q, ¬ occursIn (toLowerCase searchId) (toLowerCase (id q))) quizzes) ∧
  (∀ q, findQuizById quizzes searchId = Some q →
        q ∈ quizzes ∧ occursIn (toLowerCase searchId) (toLowerCase (id q))).
Proof.
  assert (∀ q, bool_decide (id q = searchId) = true →
               startsWith (toLowerCase (id q)) (toLowerCase searchId) = true) as Hexact.
  { intros q ->%bool_decide_eq_true. apply startsWith_refl. }
  assert (∀ (f : LoadedQuiz → bool) q, find f quizzes = Some q → q ∈ quizzes ∧ f q = true)
    as Hfind.
  { intros f q (pre & post & -> & Hq & _)%find_Some_first. split; [|done].
    apply elem_of_app. right. apply list_elem_of_here. }
  unfold findQuizById. split.
  - destruct (find (λ q, bool_decide _) quizzes) as [q|] eqn:H1.
    { split; [done|]. intros Hnone. apply Hfind in H1 as [Hq Hf].
      rewrite list.Forall_forall in Hnone. destruct (Hnone q Hq).
      by apply includes_spec, startsWith_includes, Hexact. }
    destruct (find (λ q, startsWith _ _) quizzes) as [q|] eqn:H2.
    { split; [done|]. intros Hnone. apply Hfind in H2 as [Hq Hf].
      rewrite list.Forall_forall in Hnone. destruct (Hnone q Hq).
      by apply includes_spec, startsWith_includes. }
    etrans; [apply find_None_Forall|]. apply Forall_proper; [|done].
    intros q. rewrite <- includes_spec. by destruct (includes _ _).
  - intros q.
    destruct (find (λ q, bool_decide _) quizzes) as [q1|] eqn:H1.
    { intros [= ->]. apply Hfind in H1 as [Hq Hf]. split; [done|].
      by apply includes_spec, startsWith_includes, Hexact. }
    destruct (find (λ q, startsWith _ _) quizzes) as [q2|] eqn:H2.
    { intros [= ->]. apply Hfind in H2 as [Hq Hf]. split; [done|].
      by apply includes_spec, startsWith_includes. }
    intros [Hq Hf]%Hfind. split; [done|]. by apply includes_spec.
Qed.

(** X9. An id equal to the search text wins over every looser match: the
    first quiz with that id is returned, whatever stands before it. Failing
    that, a quiz whose id starts with the search text, case ignored, wins
    over one that only contains it. *)
Theorem findQuizById_priority quizzes searchId :
  (∀ pre q post,
      quizzes = pre ++ q :: post → id q = searchId →
      Forall (λ earlier, id earlier ≠ searchId) pre →
      findQuizById quizzes searchId = Some q) ∧
  (Forall (λ q, id q ≠ searchId) quizzes →
   ∀ q, q ∈ quizzes →
        startsWith (toLowerCase (id q)) (toLowerCase searchId) = true →
        ∃ found, findQuizById quizzes searchId = Some found ∧
                 startsWith (toLowerCase (id found)) (toLowerCase searchId) = true).
Proof.
  split.
  - intros pre q post -> Hid Hpre. unfold findQuizById.
    assert (find (λ q0, bool_decide (id q0 = searchId)) (pre ++ q :: post) = Some q)
      as ->; [|done].
    induction Hpre as [|earlier pre Hne _ IH]; simpl.
    + by rewrite bool_decide_eq_true_2.
    + by rewrite bool_decide_eq_false_2.
  - intros Hnone q Hq Hstarts. unfold findQuizById.
    assert (find (λ q0, bool_decide (id q0 = searchId)) quizzes = None) as ->.
    { apply find_None_Forall. eapply list.Forall_impl; [exact Hnone|].
      intros q0 Hne. by apply bool_decide_eq_false_2. }
    destruct (find (λ q, startsWith _ _) quizzes) as [found|] eqn:Hfound.
    + exists found. split; [done|].
      by apply find_Some_first in Hfound as (? & ? & _ & ? & _).
    + apply find_None_Forall in Hfound. rewrite list.Forall_forall in Hfound.
      specialize (Hfound q Hq). congruence.
Qed.

End FindFacts.


(** ** The questions of a session *)

Import GeneratorSpec.

Section SessionQuestions.
Context `{Runtime}.

Lemma forEach_map {X Q K} (g : Q → K) (h : X → list K)
    (body : list Q → X → Rand (list Q)) acc (l : list X) t :
  (∀ acc' x t', map g (fst (body acc' x t')) = map g acc' ++ h x) →
  map g (fst (forEach body acc l t)) = map g acc ++ (l ≫= h).
Proof.
  intros Hbody. revert acc t.
  induction l as [|x l IH]; intros acc t; cbn [forEach]; run_rand.
  - by rewrite app_nil_r.
  - rewrite IH, Hbody. cbn [mbind list_bind]. by rewrite <- app_assoc.
Qed.

Lemma createQuestion_card_direction card' allCards dir mode' t :
  card (fst (createQuestion card' allCards dir mode' t)) = card' ∧
  direction (fst (createQuestion card' allCards dir mode' t)) = dir.
Proof. unfold createQuestion. destruct mode'; by run_rand. Qed.

Lemma createQuestion_consistent cards card' allCards dir mode' t :
  card' ∈ cards →
  consistent cards (fst (createQuestion card' allCards dir mode' t)).
Proof.
  intros Hin. unfold consistent, createQuestion.
  destruct mode'; run_rand; cbn [card prompt correctAnswers direction mode options].
  - destruct dir; by split_and!.
  - destruct dir; split_and!; try done; split; (by intros [? ?]) || done.
Qed.

Lemma pickMode_required mode' m t :
  requiredMode mode' = Some m → fst (pickMode mode' t) = m.
Proof. destruct mode'; simpl; congruence. Qed.

(** X10. [generateQuestions] asks every card once in each direction: the
    questions, by card and direction, are a permutation of the cards each
    taken front to back and back to front. *)
Theorem generateQuestions_covers_cards cards mode' t :
  map (λ q, (card q, direction q)) (valueOn t (generateQuestions cards mode'))
  ≡ₚ cards ≫= bothDirections.
Proof.
  unfold generateQuestions. run_rand. rewrite shuffle_Permutation.
  rewrite (forEach_map _ bothDirections).
  - cbn [map app]. by rewrite shuffle_Permutation.
  - intros acc x t'. unfold pushQuestions. run_rand.
    rewrite !map_app. cbn [map].
    rewrite !(proj1 (createQuestion_card_direction _ _ _ _ _)).
    rewrite !(proj2 (createQuestion_card_direction _ _ _ _ _)).
    by rewrite <- app_assoc.
Qed.

(** X11. Every question of [generateQuestions] is about a card of the list,
    prompts with the side its direction shows, accepts the other side as its
    first answer, carries options exactly when it is multiple choice, and
    has the mode asked for unless the mode is mixed. *)
Theorem generateQuestions_consistent cards mode' t :
  Forall (λ q, consistent cards q ∧
               ∀ m, requiredMode mode' = Some m → mode q = m)
         (valueOn t (generateQuestions cards mode')).
Proof.
  unfold generateQuestions. run_rand. rewrite shuffle_Permutation.
  apply forEach_Forall; [|constructor].
  intros acc x t' Hacc Hx. unfold pushQuestions. run_rand.
  rewrite shuffle_Permutation in Hx.
  rewrite !Forall_app. split_and!; [done| |].
  - constructor; [|done]. split; [by apply createQuestion_consistent|].
    intros m Hm. rewrite (pickMode_required _ _ _ Hm).
    apply createQuestion_mode.
  - constructor; [|done]. split; [by apply createQuestion_consistent|].
    intros m Hm. rewrite (pickMode_required _ _ _ Hm).
    apply createQuestion_mode.
Qed.

(** X12. The options of every multiple-choice question of [generateQuestions]:
    between one and four, exactly one flagged correct, which shows the
    answer; every other option shows the answer side of a card of the list
    with another id. *)
Theorem generateQuestions_options cards mode' t :
  Forall (λ q, ∀ os, options q = Some os →
                     options_shaped cards (card q) (direction q) os)
         (valueOn t (generateQuestions cards mode')).
Proof.
  unfold generateQuestions. run_rand. rewrite shuffle_Permutation.
  apply forEach_Forall; [|constructor].
  intros acc x t' Hacc Hx. unfold pushQuestions. run_rand.
  assert (∀ dir m t'',
    ∀ os, options (fst (createQuestion x (fst (shuffle cards t)) dir m t'')) = Some os →
          options_shaped cards
            (card (fst (createQuestion x (fst (shuffle cards t)) dir m t'')))
            (direction (fst (createQuestion x (fst (shuffle cards t)) dir m t''))) os)
    as Hshape.
  { intros dir m t'' os Hos.
    destruct (createQuestion_card_direction x (fst (shuffle cards t)) dir m t'')
      as [-> ->].
    destruct m; [|done].
    destruct (createQuestion_option_shape x (fst (shuffle cards t)) dir t'')
      as (os' & Hos' & Hlen & Hone & Hcorrect & Hwrong).
    unfold valueOn in Hos'. rewrite Hos in Hos'. simplify_eq.
    split_and!; [lia|lia|done|done|].
    intros o Ho Hflag. destruct (Hwrong o Ho Hflag) as (c & Hc & Hid & Htext).
    exists c. split; [|done]. by rewrite <- (shuffle_Permutation cards t). }
  rewrite !Forall_app. split_and!; [done| |]; (constructor; [apply Hshape|done]).
Qed.

End SessionQuestions.


(** ** The question-generator service *)

Section ServiceQuestions.
Context `{Runtime}.
Import QuestionGenerator QuestionGeneratorApi.

Lemma sliceTo_length {A} (stop : Z) (l : list A) :
  length (sliceTo stop l)
  = Z.to_nat (if (stop <? 0)%Z then Z.max (Z.of_nat (length l) + stop) 0
              else Z.min stop (Z.of_nat (length l))).
Proof. unfold sliceTo. rewrite length_take. case_match; lia. Qed.

Lemma sliceTo_subseteq {A} (stop : Z) (l : list A) : sliceTo stop l ⊆ l.
Proof. apply subseteq_take. Qed.

(** The options [generateQuestion] builds are a permutation of the correct
    option followed by one distractor per card the slice kept. *)
Lemma generateQuestion_options targetCard allCards dir n t :
  ∃ correctOption wrongOptions wrongCards,
    QuestionGenerator.options (question (fst (generateQuestion targetCard allCards dir n t)))
      ≡ₚ correctOption :: wrongOptions ∧
    Choice.text correctOption = answerSide dir targetCard ∧
    Choice.isCorrect correctOption = true ∧
    Forall (λ o, Choice.isCorrect o = false) wrongOptions ∧
    map Choice.text wrongOptions = map (answerSide dir) wrongCards ∧
    wrongCards ⊆ otherCardsOf targetCard allCards ∧
    length wrongCards
    = Z.to_nat (if (n - 1 <? 0)%Z
                then Z.max (Z.of_nat (length (otherCardsOf targetCard allCards)) + (n - 1)) 0
                else Z.min (n - 1) (Z.of_nat (length (otherCardsOf targetCard allCards)))).
Proof.
  unfold generateQuestion. run_rand. cbn [QuestionGenerator.options question].
  set (t1 := snd (shuffle (otherCardsOf targetCard allCards) t)).
  set (shuffled := fst (shuffle (otherCardsOf targetCard allCards) t)).
  set (wrongCards := sliceTo (n - 1) shuffled).
  set (t2 := snd (newChoice true (answerSide dir targetCard) t1)).
  set (correctOption := fst (newChoice true (answerSide dir targetCard) t1)).
  set (wrong := mapRand (newChoice false) (map (answerSide dir) wrongCards) t2).
  exists correctOption, (fst wrong), wrongCards.
  destruct (mapRand_newChoice false (map (answerSide dir) wrongCards) t2)
    as [Htexts Hflags].
  destruct (newChoice_fields true (answerSide dir targetCard) t1) as [Htext Hflag].
  assert (shuffled ≡ₚ otherCardsOf targetCard allCards) as Hperm
    by apply shuffle_Permutation.
  split_and!; try done.
  - apply shuffle_Permutation.
  - intros c Hc. rewrite <- Hperm. eapply sliceTo_subseteq, Hc.
  - unfold wrongCards. by rewrite sliceTo_length, (Permutation_length Hperm).
Qed.

(** X13. A question of [generateQuestion] asked for [numOptions >= 1] options
    has that many, or one more than there are other cards if that is fewer;
    exactly one of them is flagged correct, and the question names its
    card. *)
Theorem generateQuestion_option_count targetCard allCards dir n t :
  (1 ≤ n)%Z →
  length (QuestionGenerator.options
            (question (valueOn t (generateQuestion targetCard allCards dir n))))
  = Z.to_nat n `min` (1 + length (otherCardsOf targetCard allCards)) ∧
  length (filter (λ o, Choice.isCorrect o = true)
            (QuestionGenerator.options
               (question (valueOn t (generateQuestion targetCard allCards dir n))))) = 1 ∧
  cardId (question (valueOn t (generateQuestion targetCard allCards dir n)))
  = Card.id targetCard.
Proof.
  intros Hn.
  destruct (generateQuestion_options targetCard allCards dir n t)
    as (co & wo & wc & Hperm & Htext & Hflag & Hwrong & Htexts & Hsub & Hlen).
  unfold valueOn. split_and!.
  - rewrite Hperm. cbn [length].
    rewrite <- (length_map Choice.text wo), Htexts, length_map, Hlen.
    case_match eqn:Hneg; [apply Z.ltb_lt in Hneg; lia|]. lia.
  - rewrite Hperm, filter_cons_True by done.
    by rewrite no_correct_among_wrong.
  - unfold generateQuestion. by run_rand.
Qed.

(** X14. [getCorrectOption] on a question of [generateQuestion] finds an
    option, the one that shows the answer side of the card. *)
Theorem getCorrectOption_generated targetCard allCards dir n t :
  ∃ o, getCorrectOption (question (valueOn t (generateQuestion targetCard allCards dir n)))
       = Some o ∧
       Choice.isCorrect o = true ∧
       Choice.text o = answerSide dir targetCard.
Proof.
  destruct (generateQuestion_options targetCard allCards dir n t)
    as (co & wo & wc & Hperm & Htext & Hflag & Hwrong & _).
  unfold getCorrectOption, valueOn.
  set (os := QuestionGenerator.options _) in *.
  destruct (find (λ o, Choice.isCorrect o) os) as [o|] eqn:Hfind.
  - exists o. apply find_Some_first in Hfind as (pre & post & Hos & Ho & _).
    split_and!; [done|done|].
    assert (o ∈ co :: wo) as Hin.
    { rewrite <- Hperm, Hos. apply elem_of_app. right. apply list_elem_of_here. }
    apply elem_of_cons in Hin as [->|Hin]; [done|].
    rewrite list.Forall_forall in Hwrong. specialize (Hwrong o Hin). congruence.
  - apply find_None_Forall in Hfind. rewrite list.Forall_forall in Hfind.
    assert (co ∈ os) as Hin by (rewrite Hperm; apply list_elem_of_here).
    specialize (Hfind co Hin). congruence.
Qed.

Lemma generateQuestion_card_direction targetCard allCards dir n t :
  QuestionGenerator.card (fst (generateQuestion targetCard allCards dir n t)) = targetCard ∧
  QuestionGenerator.direction (fst (generateQuestion targetCard allCards dir n t)) = dir.
Proof. unfold generateQuestion. by run_rand. Qed.

Lemma pushQuestions_loop cardList n bidir t :
  map (λ q, (QuestionGenerator.card q, QuestionGenerator.direction q))
      (fst (forEach (QuestionGenerator.pushQuestions cardList n bidir) [] cardList t))
  = cardList ≫= (λ c, if bidir
                      then [(c, FrontToBack); (c, BackToFront)]
                      else [(c, FrontToBack)]).
Proof.
  rewrite (forEach_map _ (λ c, if bidir
                               then [(c, FrontToBack); (c, BackToFront)]
                               else [(c, FrontToBack)])); [done|].
  intros acc x t'. unfold QuestionGenerator.pushQuestions. run_rand.
  destruct bidir; run_rand; rewrite !map_app; cbn [map];
    rewrite ?(proj1 (generateQuestion_card_direction _ _ _ _ _)),
            ?(proj2 (generateQuestion_card_direction _ _ _ _ _));
    by rewrite <- ?app_assoc.
Qed.

(** X15. With [shuffle: false] the questions come in the order of the cards,
    front to back first and then, if [bidirectional], back to front. *)
Theorem unshuffled_questions_follow_cards cards' n bidir t :
  map (λ q, (QuestionGenerator.card q, QuestionGenerator.direction q))
      (valueOn t (generateMultipleChoiceQuestionsFromCards cards'
                    {| numOptions := n; bidirectional := bidir;
                       shouldShuffle := Some false |}))
  = cards' ≫= (λ c, if default true bidir
                    then [(c, FrontToBack); (c, BackToFront)]
                    else [(c, FrontToBack)]).
Proof.
  unfold generateMultipleChoiceQuestionsFromCards.
  cbn [numOptions bidirectional shouldShuffle].
  change (default true (Some false)) with false. cbv iota. run_rand.
  apply pushQuestions_loop.
Qed.

(** X16. [generateMultipleChoiceQuestions] on a quiz asks every card of the
    quiz in each direction asked for, in some order. *)
Theorem generateMultipleChoiceQuestions_covers_cards quiz' opts t :
  map (λ q, (QuestionGenerator.card q, QuestionGenerator.direction q))
      (valueOn t (generateMultipleChoiceQuestions quiz' opts))
  ≡ₚ QuizLoader.cards quiz' ≫=
       (λ c, if default true (bidirectional opts)
             then [(c, FrontToBack); (c, BackToFront)]
             else [(c, FrontToBack)]).
Proof.
  unfold generateMultipleChoiceQuestions, generateMultipleChoiceQuestionsFromCards.
  run_rand.
  assert (∀ {X} (l : list X) t',
            fst ((if default true (shouldShuffle opts)
                  then shuffle l else ret l) t') ≡ₚ l) as Hshuffle.
  { intros X l t'. destruct (default true (shouldShuffle opts));
      [apply shuffle_Permutation|done]. }
  rewrite Hshuffle, pushQuestions_loop. by rewrite Hshuffle.
Qed.

End ServiceQuestions.

Lemma generateQuestion_option_count_witness :
  (1 ≤ 4)%Z ∧
  length (QuestionGenerator.options
            (QuestionGenerator.question (valueOn (λ _, 0%N)
               (QuestionGenerator.generateQuestion (H:=Latin1) hola [hola] FrontToBack 4))))
  = Z.to_nat 4 `min` (1 + length (otherCardsOf hola [hola])) ∧
  length (filter (λ o, Choice.isCorrect o = true)
            (QuestionGenerator.options
               (QuestionGenerator.question (valueOn (λ _, 0%N)
                  (QuestionGenerator.generateQuestion (H:=Latin1) hola [hola] FrontToBack 4))))) = 1 ∧
  QuestionGenerator.cardId (QuestionGenerator.question (valueOn (λ _, 0%N)
            (QuestionGenerator.generateQuestion (H:=Latin1) hola [hola] FrontToBack 4)))
  = Card.id hola.
Proof.
  split; [lia|].
  apply (generateQuestion_option_count (H:=Latin1) hola [hola] FrontToBack 4 (λ _, 0%N)).
  lia.
Defined.


(** ** Keys in a session *)

Import SessionExamples.

Section KeyFacts.
Context `{Runtime}.

Lemma awaiting_handleKey state q event :
  awaiting state q →
  handleKey event state
  = match
      match mode q with
      | MultipleChoiceQ => handleMultipleChoiceKey event state
      | TypeAnswerQ => handleTypeAnswerKey event state
      end
    with
    | Some state' => Continue state'
    | None => Throw
    end.
Proof.
  intros [Hshow Hq].
  assert (currentIndex state < length (questions state)) as Hlt
    by (by eapply lookup_lt_Some).
  unfold handleKey. rewrite bool_decide_eq_false_2 by lia. by rewrite Hshow, Hq.
Qed.

Lemma withTypedAnswer_same state : withTypedAnswer (typedAnswer state) state = state.
Proof. by destruct state. Qed.

Lemma withSelectedOption_same state :
  withSelectedOption (selectedOption state) state = state.
Proof. by destruct state. Qed.

Lemma dropLast_app_one s c : dropLast (s ++ [c]) = s.
Proof.
  unfold dropLast. rewrite length_app. cbn [length].
  replace (length s + 1 - 1) with (length s) by lia. by rewrite take_app_length.
Qed.

(** X17. On a type-answer question a one-character key, without Ctrl or Meta,
    appends its character to the buffer, and backspace takes it off again:
    after the two keys the state is what it was. *)
Theorem type_then_backspace state q c event erase :
  awaiting state q → mode q = TypeAnswerQ →
  name event = [c] → ctrl event = false → meta event = false →
  toLowerCase (name event) ≠ str "backspace" →
  isReturnKey (toLowerCase (name event)) = false →
  toLowerCase (name erase) = str "backspace" →
  handleKey event state = Continue (withTypedAnswer (typedAnswer state ++ [c]) state) ∧
  runKeys [event; erase] state = Continue state.
Proof.
  intros Hawait Hmode Hname Hctrl Hmeta Hback Hreturn Herase.
  assert (handleKey event state
          = Continue (withTypedAnswer (typedAnswer state ++ [c]) state)) as Hfirst.
  { rewrite (awaiting_handleKey _ q) by done. rewrite Hmode.
    destruct Hawait as [_ Hq]. unfold handleTypeAnswerKey. rewrite Hq.
    rewrite bool_decide_eq_false_2 by done. rewrite Hreturn, Hname, Hctrl, Hmeta.
    done. }
  split; [done|]. cbn [runKeys]. rewrite Hfirst.
  rewrite (awaiting_handleKey _ q) by (destruct Hawait; by split).
  rewrite Hmode. destruct Hawait as [_ Hq].
  unfold handleTypeAnswerKey. cbn [questions currentIndex withTypedAnswer].
  rewrite Hq, Herase. rewrite bool_decide_eq_true_2 by done.
  cbn [typedAnswer withTypedAnswer]. rewrite dropLast_app_one.
  by destruct state.
Qed.


(** The tolerance [handleTypeAnswerKey] passes to [matchAnswer]. *)
Lemma submit_typed_grades event state q :
  awaiting state q → mode q = TypeAnswerQ →
  isReturnKey (toLowerCase (name event)) = true →
  trim (typedAnswer state) ≠ [] →
  handleKey event state
  = Continue (recordAnswer
      (isCorrect (matchAnswer (typedAnswer state) (correctAnswers q)
         {| ignoreCase := Some true; ignoreAccents := Some true;
            allowTypoDistance := Some 1%Z |})) q state).
Proof.
  intros Hawait Hmode Hkey Hblank.
  rewrite (awaiting_handleKey _ q) by done. rewrite Hmode.
  destruct Hawait as [_ Hq]. unfold handleTypeAnswerKey. rewrite Hq, Hkey.
  destruct (return_key_is_no_other_key _ Hkey) as (-> & _).
  rewrite bool_decide_eq_true_2; [done|].
  destruct (trim (typedAnswer state)); [done|cbn [length]; lia].
Qed.

(** X19. Enter on a typed answer that is not blank counts it as correct
    exactly when an accepted answer of the question, normalized with case
    and accents ignored, equals the normalized text or is one edit away from
    it; otherwise it counts it as incorrect. *)
Theorem submit_typed_counts event state q :
  awaiting state q → mode q = TypeAnswerQ →
  isReturnKey (toLowerCase (name event)) = true →
  trim (typedAnswer state) ≠ [] →
  ∃ wasCorrect,
    handleKey event state = Continue (recordAnswer wasCorrect q state) ∧
    (wasCorrect = true ↔
       ∃ a, a ∈ correctAnswers q ∧
            editDistance
              {| ignoreCase := Some true; ignoreAccents := Some true;
                 allowTypoDistance := Some 1%Z |} (typedAnswer state) a ≤ 1).
Proof.
  intros Hawait Hmode Hkey Hblank. eexists. split.
  - by apply submit_typed_grades.
  - set (opts := {| ignoreCase := Some true; ignoreAccents := Some true;
                    allowTypoDistance := Some 1%Z |}).
    destruct (matchAnswer_cases (typedAnswer state) (correctAnswers q) opts)
      as [(pre & answer & post & -> & Heq & ->)
         |[Hnone [[-> ->]|(m & best & Hbest & Hm & Hmin & ->)]]].
    + split; [|done]. intros _. exists answer. split.
      * apply elem_of_app. right. apply list_elem_of_here.
      * unfold editDistance. rewrite <- levenshteinDistance_levenshtein, Heq.
        rewrite (proj2 (levenshteinDistance_zero_iff_lemma _ _)) by done. lia.
    + split; [done|]. intros (a & Ha & _). by apply elem_of_nil in Ha.
    + cbn [isCorrect fuzzyMatch]. change (tolerance opts) with 1%Z.
      rewrite bool_decide_eq_true. split.
      * intros Hle. exists best. split; [done|]. lia.
      * intros (a & Ha & Hle). specialize (Hmin a Ha). lia.
Qed.

End KeyFacts.


Lemma type_then_backspace_witness :
  awaiting (initialState [typedQuestion]) typedQuestion ∧
  mode typedQuestion = TypeAnswerQ ∧
  name (key (str "a")) = [97%N] ∧
  ctrl (key (str "a")) = false ∧ meta (key (str "a")) = false ∧
  toLowerCase (Runtime:=Latin1) (name (key (str "a"))) ≠ str "backspace" ∧
  isReturnKey (toLowerCase (Runtime:=Latin1) (name (key (str "a")))) = false ∧
  toLowerCase (Runtime:=Latin1) (name (key (str "backspace"))) = str "backspace" ∧
  handleKey (H:=Latin1) (key (str "a")) (initialState [typedQuestion])
  = Continue (withTypedAnswer (typedAnswer (initialState [typedQuestion]) ++ [97%N])
                              (initialState [typedQuestion])) ∧
  runKeys (H:=Latin1) [key (str "a"); key (str "backspace")] (initialState [typedQuestion])
  = Continue (initialState [typedQuestion]).
Proof.
  assert (awaiting (initialState [typedQuestion]) typedQuestion) as Hawait
    by (split; reflexivity).
  assert (toLowerCase (Runtime:=Latin1) (name (key (str "a"))) ≠ str "backspace")
    as Hback by (vm_compute; discriminate).
  split_and!; [exact Hawait|reflexivity|reflexivity|reflexivity|reflexivity|exact Hback
              |reflexivity|reflexivity| |];
    apply (type_then_backspace (H:=Latin1) (initialState [typedQuestion]) typedQuestion
             97%N (key (str "a")) (key (str "backspace")) Hawait eq_refl eq_refl
             eq_refl eq_refl Hback eq_refl eq_refl).
Defined.


Lemma submit_typed_counts_witness :
  awaiting (typing (str "helo")) typedQuestion ∧
  mode typedQuestion = TypeAnswerQ ∧
  isReturnKey (toLowerCase (Runtime:=Latin1) (name returnKey)) = true ∧
  trim (typedAnswer (typing (str "helo"))) ≠ [] ∧
  ∃ wasCorrect,
    handleKey (H:=Latin1) returnKey (typing (str "helo"))
    = Continue (recordAnswer wasCorrect typedQuestion (typing (str "helo"))) ∧
    (wasCorrect = true ↔
       ∃ a, a ∈ correctAnswers typedQuestion ∧
            editDistance (H:=Latin1)
              {| ignoreCase := Some true; ignoreAccents := Some true;
                 allowTypoDistance := Some 1%Z |}
              (typedAnswer (typing (str "helo"))) a ≤ 1).
Proof.
  assert (awaiting (typing (str "helo")) typedQuestion) as Hawait
    by (split; reflexivity).
  assert (trim (typedAnswer (typing (str "helo"))) ≠ []) as Hblank
    by (vm_compute; discriminate).
  split_and!; [exact Hawait|reflexivity|reflexivity|exact Hblank|].
  exact (submit_typed_counts (H:=Latin1) returnKey (typing (str "helo")) typedQuestion
           Hawait eq_refl eq_refl Hblank).
Defined.

(** ** The pace of a session *)

Section Progress.
Context `{Runtime}.

(** After [k] key presses the index has moved on at most [k / 2] times: a
    question takes one key to answer and one to leave. *)
Lemma runKeys_progress qs events state k :
  counters_invariant qs state →
  2 * currentIndex state + (if showingResult state then 1 else 0) ≤ k →
  ∃ state',
    (runKeys events state = Continue state' ∨
     runKeys events state = Resolved state' ∧ length qs ≤ currentIndex state') ∧
    counters_invariant qs state' ∧
    2 * currentIndex state' + (if showingResult state' then 1 else 0)
    ≤ k + length events.
Proof.
  revert state k. induction events as [|event events IH]; intros state k Hinv Hk.
  - exists state. cbn [runKeys length]. split_and!; [by left|done|lia].
  - cbn [runKeys length].
    destruct (handleKey_cases event state)
      as [[Hdone Hkey]|[(Hlt & Hshow & Hkey)|(Hlt & Hshow & s' & Hkey & Hh)]];
      rewrite Hkey.
    + exists state. pose proof Hinv as (Hqs & _). rewrite Hqs in Hdone.
      split_and!; [by right|done|lia].
    + destruct (IH (advance state) (S k)) as (state' & Hrun & Hinv' & Hk').
      * by eapply counters_invariant_step.
      * rewrite Hshow in Hk. cbn [advance currentIndex showingResult]. lia.
      * exists state'. split_and!; [done|done|lia].
    + destruct (IH s' (S k)) as (state' & Hrun & Hinv' & Hk').
      * by eapply counters_invariant_step.
      * rewrite Hshow in Hk.
        destruct Hh as [_ Hidx _ _ Hs|wasCorrect q s _ Hidx _ _ ->].
        -- rewrite Hidx, Hs, Hshow. lia.
        -- cbn [recordAnswer currentIndex showingResult]. rewrite Hidx. lia.
      * exists state'. split_and!; [done|done|lia].
Qed.

(** X20. No question can be skipped or answered twice: after any keys the
    index is at most half their number, so a session of N questions takes
    at least 2N key presses; and the command resolves only when the index
    has reached N, with all N questions counted. *)
Theorem session_pace qs events :
  ∃ state,
    (runKeys events (initialState qs) = Continue state ∨
     runKeys events (initialState qs) = Resolved state ∧
       currentIndex state = length qs ∧
       correct state + incorrect state = length qs) ∧
    2 * currentIndex state ≤ length events.
Proof.
  destruct (runKeys_progress qs events (initialState qs) 0
              (counters_invariant_initial qs)) as (state & Hrun & Hinv & Hk).
  { cbn. lia. }
  exists state. destruct Hinv as (Hqs & Hsum & Hle). split; [|lia].
  destruct Hrun as [?|[? Hdone]]; [by left|right].
  split; [done|]. destruct (showingResult state); lia.
Qed.

End Progress.

(** ** Choosing a mode and starting the command *)

Import QuizLoader LearnCommand.

Section CommandFacts.
Context `{Runtime}.

(** On a list of [count > 0] entries both arrow steps keep the cursor on an
    entry, and undo each other. *)
Lemma cursor_in_range count cursor :
  0 < count → (0 ≤ cursor < Z.of_nat count)%Z →
  (0 ≤ cursorUp count cursor < Z.of_nat count)%Z ∧
  (0 ≤ cursorDown count cursor < Z.of_nat count)%Z ∧
  cursorUp count (cursorDown count cursor) = cursor ∧
  cursorDown count (cursorUp count cursor) = cursor.
Proof.
  intros Hcount Hcursor. unfold cursorUp, cursorDown.
  repeat case_bool_decide; lia.
Qed.

Lemma at_index_in_range {A} (array : list A) index :
  (0 ≤ index < Z.of_nat (length array))%Z →
  ∃ x, at_index array index = Some x ∧ x ∈ array.
Proof.
  intros Hindex. unfold at_index. rewrite bool_decide_eq_true_2 by lia.
  destruct (lookup_lt_is_Some_2 array (Z.to_nat index)) as [x Hx]; [lia|].
  exists x. split; [done|]. by eapply list_elem_of_lookup_2.
Qed.

Lemma selectModeKey_in_range event selectedIndex :
  (0 ≤ selectedIndex < 3)%Z →
  match selectModeKey event selectedIndex with
  | Selecting selectedIndex' => (0 ≤ selectedIndex' < 3)%Z
  | Chosen (Some mode) => mode ∈ modes
  | Chosen None => True
  | SelectionThrow => False
  end.
Proof.
  intros Hindex. unfold selectModeKey.
  destruct (cursor_in_range (length modes) selectedIndex) as (Hup & Hdown & _);
    [cbn; lia|done|].
  destruct (at_index_in_range modes selectedIndex) as (x & Hx & Hin); [cbn; lia|].
  change (Z.of_nat (length modes)) with 3%Z in Hup, Hdown.
  rewrite Hx. repeat case_match; by simplify_eq.
Qed.

Lemma selectModeKeys_in_range events selectedIndex :
  (0 ≤ selectedIndex < 3)%Z →
  match selectModeKeys events selectedIndex with
  | Selecting selectedIndex' => (0 ≤ selectedIndex' < 3)%Z
  | Chosen (Some mode) => mode ∈ modes
  | Chosen None => True
  | SelectionThrow => False
  end.
Proof.
  revert selectedIndex. induction events as [|event events IH];
    intros selectedIndex Hindex; cbn [selectModeKeys]; [done|].
  pose proof (selectModeKey_in_range event selectedIndex Hindex) as Hstep.
  destruct (selectModeKey event selectedIndex) as [selectedIndex'|[mode'|]|];
    [by apply IH|done..].
Qed.

(** X21. Whatever keys are pressed, [selectLearnMode] never reads past the
    three modes: its cursor stays on one of them, it never throws, and the
    mode it resolves with, unless it resolves with [null] on Escape, is one
    of the three. *)
Theorem selectLearnMode_safe events :
  match selectLearnMode events with
  | Selecting selectedIndex => (0 ≤ selectedIndex < 3)%Z
  | Chosen (Some mode) => mode ∈ modes
  | Chosen None => True
  | SelectionThrow => False
  end.
Proof. apply selectModeKeys_in_range. lia. Qed.

Lemma allCards_bind (loadedQuizzes : list LoadedQuiz) acc :
  foldl (λ all q, all ++ cards (quiz q)) acc loadedQuizzes
  = acc ++ (loadedQuizzes ≫= λ q, cards (quiz q)).
Proof.
  revert acc. induction loadedQuizzes as [|q qs IH]; intros acc; simpl.
  - by rewrite app_nil_r.
  - by rewrite IH, app_assoc.
Qed.

(** What [runLearnCommand] starts with, by the cards of the quizzes. *)
Lemma startLearn_cases mode' loadedQuizzes t :
  valueOn t (startLearn (Some mode') loadedQuizzes)
  = if bool_decide (length (loadedQuizzes ≫= λ q, cards (quiz q)) = 0)
    then ErrorShown (str "No cards found in the selected quizzes.")
    else Running (initialState
           (valueOn t (generateQuestions (loadedQuizzes ≫= λ q, cards (quiz q)) mode'))).
Proof.
  unfold startLearn. rewrite allCards_bind. cbn [app].
  case_bool_decide as Hempty; [done|]. run_rand.
  pose proof (generateQuestions_length (loadedQuizzes ≫= λ q, cards (quiz q)) mode' t)
    as Hlen.
  unfold valueOn in Hlen. by rewrite bool_decide_eq_false_2 by lia.
Qed.

(** X22. [runLearnCommand] returns at once on a cancelled mode selection,
    shows [No cards found] exactly when the quizzes have no card between
    them, and otherwise starts a session in its initial state on two
    questions per card; the screen [No questions could be generated] is
    never shown. *)
Theorem startLearn_outcomes mode' loadedQuizzes t :
  valueOn t (startLearn None loadedQuizzes) = Cancelled ∧
  (valueOn t (startLearn (Some mode') loadedQuizzes)
   = ErrorShown (str "No cards found in the selected quizzes.")
   ↔ Forall (λ q, cards (quiz q) = []) loadedQuizzes) ∧
  (¬ Forall (λ q, cards (quiz q) = []) loadedQuizzes →
   ∃ qs, valueOn t (startLearn (Some mode') loadedQuizzes) = Running (initialState qs) ∧
         length qs = 2 * length (loadedQuizzes ≫= λ q, cards (quiz q))) ∧
  valueOn t (startLearn (Some mode') loadedQuizzes)
  ≠ ErrorShown (str "No questions could be generated from these quizzes.").
Proof.
  assert (length (loadedQuizzes ≫= λ q, cards (quiz q)) = 0
          ↔ Forall (λ q, cards (quiz q) = []) loadedQuizzes) as Hempty.
  { rewrite length_zero_iff_nil. induction loadedQuizzes as [|q qs IH].
    - by split.
    - cbn [mbind list_bind]. split.
      + intros [Hq Hqs]%app_eq_nil. constructor; [done|by apply IH].
      + intros Hall. inversion Hall as [|? ? Hq Hqs]; subst.
        rewrite Hq. by apply IH. }
  rewrite startLearn_cases. split_and!.
  - done.
  - rewrite <- Hempty. by case_bool_decide.
  - intros Hsome. rewrite <- Hempty in Hsome.
    rewrite bool_decide_eq_false_2 by done.
    eexists. split; [done|]. apply generateQuestions_length.
  - by case_bool_decide.
Qed.

End CommandFacts.

(** ** The quiz menu *)

Import Menu.

Section MenuFacts.
Context `{Runtime}.

Lemma menuOptions_length quizzes' :
  quizzes' ≠ [] → 0 < length (menuOptions quizzes').
Proof.
  intros Hne. unfold menuOptions. rewrite length_app, length_map.
  destruct quizzes' as [|q qs]; [done|].
  assert (0 < length (q :: qs)) by (simpl; lia). lia.
Qed.

Lemma cardCount_sum (quizzes' : list LoadedQuiz) acc :
  foldl (λ sum q, sum + length (cards (quiz q))) acc quizzes'
  = acc + length (quizzes' ≫= λ q, cards (quiz q)).
Proof.
  revert acc. induction quizzes' as [|q qs IH]; intros acc;
    cbn [foldl mbind list_bind]; [simpl; lia|].
  rewrite IH, length_app. lia.
Qed.

Lemma menuKey_in_range options event selectedIndex :
  (0 ≤ selectedIndex < Z.of_nat (length options))%Z →
  match menuKey options event selectedIndex with
  | Browsing selectedIndex' => (0 ≤ selectedIndex' < Z.of_nat (length options))%Z
  | Launch selected => selected ∈ options
  | Quit => True
  | MenuThrow => False
  end.
Proof.
  intros Hindex. unfold menuKey.
  destruct (cursor_in_range (length options) selectedIndex) as (Hup & Hdown & _);
    [lia|done|].
  destruct (at_index_in_range options selectedIndex Hindex) as (x & Hx & Hin).
  rewrite Hx. repeat case_match; by simplify_eq.
Qed.

Lemma menuKeys_in_range options events selectedIndex :
  (0 ≤ selectedIndex < Z.of_nat (length options))%Z →
  match menuKeys options events selectedIndex with
  | Browsing selectedIndex' => (0 ≤ selectedIndex' < Z.of_nat (length options))%Z
  | Launch selected => selected ∈ options
  | Quit => True
  | MenuThrow => False
  end.
Proof.
  revert selectedIndex. induction events as [|event events IH];
    intros selectedIndex Hindex; cbn [menuKeys]; [done|].
  pose proof (menuKey_in_range options event selectedIndex Hindex) as Hstep.
  destruct (menuKey options event selectedIndex); [by apply IH|done..].
Qed.

(** X23. With at least one quiz loaded the menu never reads past its
    options: the cursor stays on an option whatever keys are pressed, the
    handler never throws, and what Enter launches is an option of the
    menu. *)
Theorem menu_safe quizzes' events :
  quizzes' ≠ [] →
  match menuKeys (menuOptions quizzes') events 0 with
  | Browsing selectedIndex =>
      (0 ≤ selectedIndex < Z.of_nat (length (menuOptions quizzes')))%Z
  | Launch selected => selected ∈ menuOptions quizzes'
  | Quit => True
  | MenuThrow => False
  end.
Proof.
  intros Hne. apply menuKeys_in_range.
  pose proof (menuOptions_length quizzes' Hne). lia.
Qed.

(** X24. The card count the menu shows for an option is the number of cards
    of the quizzes it stands for, and the session launched from it asks two
    questions per card shown; an option showing 0 cards leads to the screen
    [No cards found]. The entry for all quizzes is there exactly when more
    than one quiz is loaded. *)
Theorem menu_card_count quizzes' mode' t :
  length (menuOptions quizzes')
  = (if bool_decide (1 < length quizzes') then 1 else 0) + length quizzes' ∧
  Forall (λ option',
            cardCount option' = length (Menu.quizzes option' ≫= λ q, cards (quiz q)) ∧
            valueOn t (startLearn (Some mode') (Menu.quizzes option'))
            = (if bool_decide (cardCount option' = 0)
               then ErrorShown (str "No cards found in the selected quizzes.")
               else Running (initialState
                      (valueOn t (generateQuestions
                         (Menu.quizzes option' ≫= λ q, cards (quiz q)) mode')))) ∧
            length (valueOn t (generateQuestions
                      (Menu.quizzes option' ≫= λ q, cards (quiz q)) mode'))
            = 2 * cardCount option')
         (menuOptions quizzes').
Proof.
  split.
  - unfold menuOptions. rewrite length_app, length_map. by case_bool_decide.
  - assert (∀ option',
              cardCount option' = length (Menu.quizzes option' ≫= λ q, cards (quiz q)) →
              cardCount option' = length (Menu.quizzes option' ≫= λ q, cards (quiz q)) ∧
              valueOn t (startLearn (Some mode') (Menu.quizzes option'))
              = (if bool_decide (cardCount option' = 0)
                 then ErrorShown (str "No cards found in the selected quizzes.")
                 else Running (initialState
                        (valueOn t (generateQuestions
                           (Menu.quizzes option' ≫= λ q, cards (quiz q)) mode')))) ∧
              length (valueOn t (generateQuestions
                        (Menu.quizzes option' ≫= λ q, cards (quiz q)) mode'))
              = 2 * cardCount option') as Hoption.
    { intros option' Hcount. split_and!; [done| |].
      - by rewrite startLearn_cases, Hcount.
      - by rewrite generateQuestions_length, Hcount. }
    unfold menuOptions. apply Forall_app. split.
    + case_bool_decide; [|constructor]. constructor; [|constructor].
      apply Hoption. cbn [cardCount Menu.quizzes]. by rewrite cardCount_sum.
    + apply Forall_fmap, Forall_true. intros q. apply Hoption.
      cbn [cardCount Menu.quizzes mbind list_bind]. by rewrite app_nil_r.
Qed.

End MenuFacts.

Lemma menu_safe_witness :
  [ {| quiz := {| title := str "Spanish"; cards := [hola] |};
       path := str "quizzes/spanish.json"; QuizLoader.id := str "spanish" |} ] ≠ [] ∧
  match menuKeys (H:=Latin1)
          (menuOptions
             [ {| quiz := {| title := str "Spanish"; cards := [hola] |};
                  path := str "quizzes/spanish.json"; QuizLoader.id := str "spanish" |} ])
          [key (str "down"); key (str "return")] 0 with
  | Browsing selectedIndex =>
      (0 ≤ selectedIndex
       < Z.of_nat (length (menuOptions
           [ {| quiz := {| title := str "Spanish"; cards := [hola] |};
                path := str "quizzes/spanish.json";
                QuizLoader.id := str "spanish" |} ])))%Z
  | Launch selected =>
      selected ∈ menuOptions
        [ {| quiz := {| title := str "Spanish"; cards := [hola] |};
             path := str "quizzes/spanish.json"; QuizLoader.id := str "spanish" |} ]
  | Quit => True
  | MenuThrow => False
  end.
Proof.
  split; [discriminate|].
  apply (menu_safe (H:=Latin1)
           [ {| quiz := {| title := str "Spanish"; cards := [hola] |};
                path := str "quizzes/spanish.json"; QuizLoader.id := str "spanish" |} ]
           [key (str "down"); key (str "return")]).
  discriminate.
Defined.


(** ** The code as a whole *)

Section Wrappers.
Context `{Runtime}.

(** X25. [levenshteinDistance], with its matrix of rows grown cell by cell,
    returns the value of the textbook recurrence of the Levenshtein distance
    at the lengths of the two strings. *)
Theorem levenshteinDistance_is_recurrence a b :
  levenshteinDistance a b = levenshtein a b (length b) (length a).
Proof. apply levenshteinDistance_levenshtein. Qed.

(** X26. [shuffle] returns a permutation of its array, of the same length,
    whatever [Math.random] draws. *)
Theorem shuffle_permutes {A} (array : list A) t :
  valueOn t (shuffle array) ≡ₚ array ∧
  length (valueOn t (shuffle array)) = length array.
Proof. split; [apply shuffle_Permutation|apply shuffle_length]. Qed.

(** X27. As soon as the card list holds a card with another id, a
    multiple-choice question of [createQuestion] has between two and four
    options. *)
Theorem distractors_with_another_card card' other allCards dir t :
  other ∈ allCards → Card.id other ≠ Card.id card' →
  ∃ os,
    options (valueOn t (createQuestion card' allCards dir MultipleChoiceQ)) = Some os ∧
    2 ≤ length os ≤ 4.
Proof. apply createQuestion_option_count. Qed.

Lemma runKeys_never_throws events state : runKeys events state ≠ Throw.
Proof.
  revert state. induction events as [|event events IH]; intros state; [done|].
  cbn [runKeys].
  destruct (handleKey_cases event state)
    as [[_ ->]|[(_ & _ & ->)|(_ & _ & state' & -> & _)]]; [done|apply IH..].
Qed.

(** X28. The key handler of the session never throws, in any state and on
    any key: the option it reads under [options![optionIndex]!] is always
    there. Nor does any sequence of keys. *)
Theorem key_handler_never_throws event events state :
  handleKey event state ≠ Throw ∧ runKeys events state ≠ Throw.
Proof. split; [apply handleKey_never_throws|apply runKeys_never_throws]. Qed.

(** X29. On a multiple-choice question not answered yet, a digit 1 to 4 or a
    letter a to d that names an option selects it and grades it at once:
    the result shown is the [isCorrect] flag of that option. *)
Theorem direct_key_grades event state q c k :
  awaiting state q → mode q = MultipleChoiceQ → answered state = false →
  toLowerCase (name event) = [c] → directOption c = Some k →
  (k < Z.of_nat (numOptionsOf q))%Z →
  ∃ o, options q ≫= (λ os, os !! Z.to_nat k) = Some o ∧
       handleKey event state
       = Continue (recordAnswer (Choice.isCorrect o) q (withSelectedOption k state)).
Proof. apply direct_key_records. Qed.

End Wrappers.

(** X30. For a session of fewer than 40 questions the percentage of the
    summary is [100 * correct / total] rounded to the nearest integer, a
    tie going up, and the total is the sum of the counters. *)
Theorem summary_exact_below_40 state :
  correct state + incorrect state < 40 →
  total (summary state) = correct state + incorrect state ∧
  percentage (summary state)
  = roundedPercentage (correct state) (correct state + incorrect state).
Proof. intros Hlt. split; [done|by apply summary_rounds_below_40]. Qed.

Lemma summary_exact_below_40_witness :
  correct (countersOnly 5 3) + incorrect (countersOnly 5 3) < 40 ∧
  total (summary (countersOnly 5 3))
  = correct (countersOnly 5 3) + incorrect (countersOnly 5 3) ∧
  percentage (summary (countersOnly 5 3))
  = roundedPercentage (correct (countersOnly 5 3))
      (correct (countersOnly 5 3) + incorrect (countersOnly 5 3)).
Proof.
  assert (correct (countersOnly 5 3) + incorrect (countersOnly 5 3) < 40) as Hlt
    by (cbn; lia).
  split; [exact Hlt|]. exact (summary_exact_below_40 (countersOnly 5 3) Hlt).
Defined.

Lemma distractors_with_another_card_witness :
  adios ∈ [hola; adios] ∧ Card.id adios ≠ Card.id hola ∧
  ∃ os,
    options (valueOn (λ _, 0%N)
               (createQuestion (H:=Latin1) hola [hola; adios] FrontToBack
                  MultipleChoiceQ)) = Some os ∧
    2 ≤ length os ≤ 4.
Proof.
  assert (adios ∈ [hola; adios]) as Hin
    by (apply list_elem_of_further, list_elem_of_here).
  assert (Card.id adios ≠ Card.id hola) as Hid by (vm_compute; discriminate).
  split_and!; [exact Hin|exact Hid|].
  exact (distractors_with_another_card (H:=Latin1) hola adios [hola; adios]
           FrontToBack (λ _, 0%N) Hin Hid).
Defined.

Lemma direct_key_grades_witness :
  awaiting (initialState [choiceQuestion]) choiceQuestion ∧
  mode choiceQuestion = MultipleChoiceQ ∧
  answered (initialState [choiceQuestion]) = false ∧
  toLowerCase (Runtime:=Latin1) (name (key (str "2"))) = [50%N] ∧
  directOption 50 = Some 1%Z ∧
  (1 < Z.of_nat (numOptionsOf choiceQuestion))%Z ∧
  ∃ o, options choiceQuestion ≫= (λ os, os !! Z.to_nat 1) = Some o ∧
       handleKey (H:=Latin1) (key (str "2")) (initialState [choiceQuestion])
       = Continue (recordAnswer (Choice.isCorrect o) choiceQuestion
                     (withSelectedOption 1 (initialState [choiceQuestion]))).
Proof.
  assert (awaiting (initialState [choiceQuestion]) choiceQuestion) as Hawait
    by (split; reflexivity).
  assert (1 < Z.of_nat (numOptionsOf choiceQuestion))%Z as Hk by (cbn; lia).
  split_and!; [exact Hawait|reflexivity|reflexivity|reflexivity|reflexivity|exact Hk|].
  exact (direct_key_grades (H:=Latin1) (key (str "2")) (initialState [choiceQuestion])
           choiceQuestion 50%N 1%Z Hawait eq_refl eq_refl eq_refl eq_refl Hk).
Defined.


(** ** One question per card and direction *)

Import ServiceSpec.

Section Cardinality.
Context `{Runtime}.

Lemma generateQuestion_asksItsCard targetCard allCards dir n t :
  asksItsCard (fst (QuestionGenerator.generateQuestion targetCard allCards dir n t)).
Proof.
  destruct (generateQuestion_options targetCard allCards dir n t)
    as (co & wo & _ & Hperm & Htext & Hflag & _).
  destruct (generateQuestion_card_direction targetCard allCards dir n t)
    as [Hcard Hdir].
  unfold asksItsCard. rewrite Hcard, Hdir. split_and!.
  - unfold QuestionGenerator.generateQuestion. by run_rand.
  - unfold QuestionGenerator.generateQuestion. by run_rand.
  - exists co. split_and!; [|done..]. rewrite Hperm. apply list_elem_of_here.
Qed.

Lemma generateQuestions_asked cards mode' t :
  Forall (consistent cards) (valueOn t (generateQuestions cards mode')).
Proof.
  unfold generateQuestions. run_rand. rewrite shuffle_Permutation.
  apply forEach_Forall; [|constructor].
  intros acc x t' Hacc Hx. unfold pushQuestions. run_rand.
  rewrite shuffle_Permutation in Hx.
  rewrite !Forall_app. split_and!; [done| |];
    (constructor; [by apply createQuestion_consistent|done]).
Qed.

Lemma fromCards_asked cards opts t :
  Forall asksItsCard
    (valueOn t (QuestionGenerator.generateMultipleChoiceQuestionsFromCards cards opts)).
Proof.
  unfold QuestionGenerator.generateMultipleChoiceQuestionsFromCards. run_rand.
  match goal with
  | |- Forall _ (fst ((if _ then shuffle ?l else ret ?l) _)) =>
      assert (Forall asksItsCard l) as Hloop
  end.
  { apply forEach_Forall; [|constructor].
    intros acc x t' Hacc _. unfold QuestionGenerator.pushQuestions. run_rand.
    destruct (default true (QuestionGenerator.bidirectional opts)); run_rand;
      rewrite !Forall_app; split_and!; try done;
      (constructor; [apply generateQuestion_asksItsCard|done]). }
  destruct (default true (QuestionGenerator.shouldShuffle opts)); [|done].
  by rewrite shuffle_Permutation.
Qed.

Lemma fromCards_directions cards opts t :
  map (λ g, (QuestionGenerator.card g, QuestionGenerator.direction g))
      (valueOn t (QuestionGenerator.generateMultipleChoiceQuestionsFromCards cards opts))
  ≡ₚ cards ≫= directionsAsked (default true (QuestionGenerator.bidirectional opts)).
Proof.
  unfold QuestionGenerator.generateMultipleChoiceQuestionsFromCards. run_rand.
  assert (∀ {X} (l : list X) t',
            fst ((if default true (QuestionGenerator.shouldShuffle opts)
                  then shuffle l else ret l) t') ≡ₚ l) as Hshuffle.
  { intros X l t'. destruct (default true (QuestionGenerator.shouldShuffle opts));
      [apply shuffle_Permutation|done]. }
  rewrite Hshuffle, pushQuestions_loop. by rewrite Hshuffle.
Qed.

Lemma generateQuestions_directions cards mode' t :
  map (λ q, (card q, direction q)) (valueOn t (generateQuestions cards mode'))
  ≡ₚ cards ≫= bothDirections.
Proof.
  unfold generateQuestions. run_rand. rewrite shuffle_Permutation.
  rewrite (forEach_map _ bothDirections).
  - cbn [map app]. by rewrite shuffle_Permutation.
  - intros acc x t'. unfold pushQuestions. run_rand.
    rewrite !map_app. cbn [map].
    rewrite !(proj1 (createQuestion_card_direction _ _ _ _ _)).
    rewrite !(proj2 (createQuestion_card_direction _ _ _ _ _)).
    by rewrite <- app_assoc.
Qed.

(** C6. Both generators ask every card once in each direction asked for.
    [generateMultipleChoiceQuestionsFromCards] returns two questions per
    card, one front to back and one back to front, when [bidirectional] is
    true or left out, and one per card, front to back, when it is false;
    [generateQuestions], which has no such switch, returns two per card, one
    in each direction. Each question prompts with the side its direction
    shows and takes the other side as its answer. Both return the empty
    list on no cards. *)
Theorem generated_question_count cards mode' opts t :
  (length (valueOn t (generateQuestions cards mode')) = 2 * length cards ∧
   map (λ q, (card q, direction q)) (valueOn t (generateQuestions cards mode'))
     ≡ₚ cards ≫= bothDirections ∧
   Forall (consistent cards) (valueOn t (generateQuestions cards mode'))) ∧
  (length (valueOn t (QuestionGenerator.generateMultipleChoiceQuestionsFromCards
                        cards opts))
     = (if default true (QuestionGenerator.bidirectional opts)
        then 2 * length cards else length cards) ∧
   map (λ g, (QuestionGenerator.card g, QuestionGenerator.direction g))
       (valueOn t (QuestionGenerator.generateMultipleChoiceQuestionsFromCards
                     cards opts))
     ≡ₚ cards ≫= directionsAsked (default true (QuestionGenerator.bidirectional opts)) ∧
   Forall asksItsCard
     (valueOn t (QuestionGenerator.generateMultipleChoiceQuestionsFromCards
                   cards opts))) ∧
  valueOn t (generateQuestions [] mode') = [] ∧
  valueOn t (QuestionGenerator.generateMultipleChoiceQuestionsFromCards [] opts) = [].
Proof.
  split_and!.
  - apply generateQuestions_length.
  - apply generateQuestions_directions.
  - apply generateQuestions_asked.
  - apply generateMultipleChoiceQuestionsFromCards_length.
  - apply fromCards_directions.
  - apply fromCards_asked.
  - apply length_zero_iff_nil. by rewrite generateQuestions_length.
  - apply length_zero_iff_nil.
    rewrite generateMultipleChoiceQuestionsFromCards_length.
    by destruct (default true (QuestionGenerator.bidirectional opts)).
Qed.

End Cardinality.

(** ** The finalizing actions and the counters *)

Import SessionActions.

Section FinalizingActions.
Context `{Runtime}.

(** [answered] and [showingResult] are set and cleared together. *)
Lemma handleKey_answered event state state' :
  handleKey event state = Continue state' →
  answered state = showingResult state →
  answered state' = showingResult state'.
Proof.
  intros Hstep Hinv.
  destruct (handleKey_cases event state)
    as [[_ Hk]|[(_ & _ & Hk)|(_ & Hshow & _)]].
  - congruence.
  - rewrite Hk in Hstep. by simplify_eq.
  - revert Hstep. unfold handleKey, handleMultipleChoiceKey, handleTypeAnswerKey,
      confirmOption.
    repeat case_match; intros; simplify_eq; cbn; congruence.
Qed.

Lemma reachable_answered qs state :
  reachable qs state → answered state = showingResult state.
Proof.
  induction 1 as [|state event state' _ IH Hstep]; [done|].
  by eapply handleKey_answered.
Qed.

Lemma confirmOption_in_range k q state :
  (0 ≤ k < Z.of_nat (numOptionsOf q))%Z → answered state = false →
  ∃ o, options q ≫= (λ os, os !! Z.to_nat k) = Some o ∧
       confirmOption (Some k) q state
       = Some (recordAnswer (Choice.isCorrect o) q (withSelectedOption k state)).
Proof.
  intros Hk Hans. unfold confirmOption.
  rewrite !bool_decide_eq_true_2 by lia. rewrite Hans. cbn [andb negb].
  unfold numOptionsOf in Hk. destruct (options q) as [os|]; simpl in *; [|lia].
  destruct (os !! Z.to_nat k) as [o|] eqn:Ho; [by eauto|].
  apply lookup_ge_None in Ho. lia.
Qed.

Lemma confirmOption_counters k q state state' :
  confirmOption k q state = Some state' →
  (correct state' ≠ correct state ∨ incorrect state' ≠ incorrect state) →
  ∃ z, k = Some z ∧ (0 ≤ z < Z.of_nat (numOptionsOf q))%Z.
Proof.
  unfold confirmOption. destruct k as [z|]; [|intros [= <-] [?|?]; done].
  destruct (bool_decide (0 ≤ z)%Z) eqn:H0;
    [|intros [= <-] [?|?]; done].
  destruct (bool_decide (z < Z.of_nat (numOptionsOf q))%Z) eqn:H1;
    [|intros [= <-] [?|?]; done].
  apply bool_decide_eq_true in H0, H1. intros _ _. exists z. split; [done|lia].
Qed.

(** Each finalizing action records an answer: it adds one to exactly one
    of the two counters and shows the result. *)
Lemma finalizing_action_counts qs event state q :
  reachable qs state → awaiting state q → finalizingAction event state q →
  ∃ wasCorrect s,
    handleKey event state = Continue (recordAnswer wasCorrect q s) ∧
    correct s = correct state ∧ incorrect s = incorrect state ∧
    counted state (recordAnswer wasCorrect q s).
Proof.
  intros Hreach Hawait Hact.
  assert (answered state = false) as Hans.
  { rewrite (reachable_answered _ _ Hreach). apply Hawait. }
  assert (∀ wasCorrect s,
            correct s = correct state → incorrect s = incorrect state →
            counted state (recordAnswer wasCorrect q s)) as Hcounted.
  { intros [] s Hc Hi; [apply counted_correct|apply counted_incorrect];
      simpl; congruence. }
  destruct Hact as [Hmode Hkey Hsel|c k Hmode Hkey Hdirect Hk|Hmode Hkey Hblank].
  - destruct (confirmOption_in_range _ q state Hsel Hans) as (o & _ & Hconfirm).
    exists (Choice.isCorrect o), (withSelectedOption (selectedOption state) state).
    split_and!; [|done|done|by apply Hcounted].
    destruct Hawait as [Hshow Hq].
    assert (currentIndex state < length (questions state)) as Hlt
      by (by eapply lookup_lt_Some).
    unfold handleKey. rewrite bool_decide_eq_false_2 by lia.
    rewrite Hshow, Hq, Hmode. unfold handleMultipleChoiceKey. rewrite Hq, Hkey.
    destruct (return_key_is_no_other_key _ Hkey) as (_ & -> & -> & -> & ->).
    rewrite bool_decide_eq_true_2 by lia. cbn [andb]. by rewrite Hconfirm.
  - destruct (direct_key_records event state q c k Hawait Hmode Hans Hkey Hdirect Hk)
      as (o & _ & Hstep).
    exists (Choice.isCorrect o), (withSelectedOption k state).
    split_and!; [done|done|done|by apply Hcounted].
  - destruct (submit_typed_records event state q Hawait Hmode Hkey Hblank)
      as (wasCorrect & Hstep).
    exists wasCorrect, state. split_and!; [done|done|done|by apply Hcounted].
Qed.

Lemma leb_one_unit lo hi c :
  JS.leb [lo] [c] && JS.leb [c] [hi] = true → (lo ≤ c ≤ hi)%N.
Proof.
  cbn [JS.leb]. intros [Hlo Hhi]%andb_true_iff.
  destruct (N.ltb_spec lo c), (N.ltb_spec c lo), (N.ltb_spec c hi),
    (N.ltb_spec hi c); try done; lia.
Qed.

(** A key name of one code unit that the handler reads as an option is a
    digit 1 to 4 or a letter a to d, and the option is the one it names. *)
Lemma direct_key_read c :
  (JS.leb (str "1") [c] && JS.leb [c] (str "4") = true →
     ∃ k, directOption c = Some k ∧ parseInt [c] = Some (k + 1)%Z) ∧
  (JS.leb (str "1") [c] && JS.leb [c] (str "4") = false →
   JS.leb (str "a") [c] && JS.leb [c] (str "d") = true →
     directOption c = Some (Z.of_N c - 97)%Z).
Proof.
  split.
  - intros Hrange. apply (leb_one_unit 49 52) in Hrange.
    assert (c = 49 ∨ c = 50 ∨ c = 51 ∨ c = 52)%N as Hc by lia.
    destruct Hc as [->|[->|[->| ->]]]; eexists; by vm_compute.
  - intros _ Hrange. apply (leb_one_unit 97 100) in Hrange.
    assert (c = 97 ∨ c = 98 ∨ c = 99 ∨ c = 100)%N as Hc by lia.
    destruct Hc as [->|[->|[->| ->]]]; by vm_compute.
Qed.

(** What changes a counter while an answer is awaited: a finalizing action,
    or, on a multiple-choice question, a key whose name of several
    characters falls between ["1"] and ["4"] or between ["a"] and ["d"] in
    string order. *)
Lemma counters_change_only_by event state q state' :
  awaiting state q → handleKey event state = Continue state' →
  (correct state' ≠ correct state ∨ incorrect state' ≠ incorrect state) →
  finalizingAction event state q ∨
  (mode q = MultipleChoiceQ ∧ readAsOption (toLowerCase (name event)) = true).
Proof.
  intros [Hshow Hq] Hstep Hchange.
  assert (currentIndex state < length (questions state)) as Hlt
    by (by eapply lookup_lt_Some).
  assert (∀ s : LearnState, Continue s = Continue state' →
            correct s = correct state → incorrect s = incorrect state → False)
    as Hquiet.
  { intros s [= <-] Hc Hi. destruct Hchange; congruence. }
  revert Hstep. unfold handleKey. rewrite bool_decide_eq_false_2 by lia.
  rewrite Hshow, Hq. destruct (mode q) eqn:Hmode.
  - unfold handleMultipleChoiceKey. rewrite Hq.
    set (keyName := toLowerCase (name event)).
    assert (toLowerCase (name event) = keyName) as HkeyName by done.
    clearbody keyName.
    destruct (JS.leb (str "1") keyName && JS.leb keyName (str "4")) eqn:Hdigit;
      [|destruct (JS.leb (str "a") keyName && JS.leb keyName (str "d")) eqn:Hletter].
    + destruct (confirmOption _ q state) as [s|] eqn:Hconfirm; [|done].
      intros [= ->].
      destruct (confirmOption_counters _ _ _ _ Hconfirm Hchange) as (z & Hz & Hrange).
      destruct keyName as [|c [|d rest]].
      * done.
      * left. destruct (direct_key_read c) as [Hread _].
        destruct (Hread Hdigit) as (k & Hdirect & Hparse).
        rewrite Hparse in Hz. cbn [mbind option_bind] in Hz. simplify_eq.
        apply (confirm_direct _ _ _ c k); [done|done|done|lia].
      * right. split; [done|]. unfold readAsOption. rewrite Hdigit.
        by rewrite bool_decide_eq_true_2 by (cbn [length]; lia).
    + destruct (confirmOption _ q state) as [s|] eqn:Hconfirm; [|done].
      intros [= ->].
      destruct (confirmOption_counters _ _ _ _ Hconfirm Hchange) as (z & Hz & Hrange).
      destruct keyName as [|c [|d rest]].
      * done.
      * left. destruct (direct_key_read c) as [_ Hread].
        cbn [lookup list_lookup mbind option_bind] in Hz. simplify_eq.
        apply (confirm_direct _ _ _ c (Z.of_N c - 97)%Z);
          [done|done|by apply Hread|lia].
      * right. split; [done|]. unfold readAsOption. rewrite Hletter, orb_true_r.
        by rewrite bool_decide_eq_true_2 by (cbn [length]; lia).
    + destruct (bool_decide (keyName = str "up")); [by intros []%Hquiet|].
      destruct (bool_decide (keyName = str "down")); [by intros []%Hquiet|].
      destruct (isReturnKey keyName && bool_decide (0 ≤ selectedOption state)%Z)
        eqn:Hreturn;
        (destruct (confirmOption _ q state) as [s|] eqn:Hconfirm; [|done]);
        intros [= ->];
        destruct (confirmOption_counters _ _ _ _ Hconfirm Hchange)
          as (z & Hz & Hrange); simplify_eq; [|lia].
      left. apply andb_true_iff in Hreturn as [Hreturn _].
      by apply confirm_selected.
  - unfold handleTypeAnswerKey. rewrite Hq.
    destruct (bool_decide (toLowerCase (name event) = str "backspace"));
      [by intros []%Hquiet|].
    destruct (isReturnKey (toLowerCase (name event))) eqn:Hreturn.
    + case_bool_decide as Hblank; [|by intros []%Hquiet].
      intros _. left. apply submit_typed; [done|done|].
      intros Hnil. rewrite Hnil in Hblank. cbn [length] in Hblank. lia.
    + destruct (bool_decide (length (name event) = 1) && negb (ctrl event)
                && negb (meta event)); [by intros []%Hquiet|].
      destruct (bool_decide (toLowerCase (name event) = str "space"));
        by intros []%Hquiet.
Qed.

End FinalizingActions.

(** ** A key that is graded without being an answer *)

(** C2. The counters are not changed by the finalizing actions alone. On a
    multiple-choice question of at least two options that is awaiting its
    answer, the Backspace key is none of the finalizing actions (it is not
    Enter on a selection, no digit 1 to 4 and no letter a to d), and yet
    [handleKey] reads its name as option b, grades that option and adds one
    to one of the two counters. *)
Theorem backspace_grades_option_b state q :
  awaiting state q → mode q = MultipleChoiceQ → answered state = false →
  2 ≤ numOptionsOf q →
  ¬ finalizingAction (H:=Latin1) backspaceKey state q ∧
  ∃ o, options q ≫= (λ os, os !! 1) = Some o ∧
       handleKey (H:=Latin1) backspaceKey state
       = Continue (recordAnswer (Choice.isCorrect o) q (withSelectedOption 1 state)) ∧
       counted state (recordAnswer (Choice.isCorrect o) q (withSelectedOption 1 state)).
Proof.
  intros [Hshow Hq] Hmode Hans Hoptions.
  assert (toLowerCase (Runtime:=Latin1) (name backspaceKey) = str "backspace")
    as Hname by (by vm_compute).
  split.
  - intros [_ Hkey _|c k _ Hkey _ _|Hmode' _ _].
    + rewrite Hname in Hkey. by vm_compute in Hkey.
    + rewrite Hname in Hkey. by vm_compute in Hkey.
    + congruence.
  - destruct (confirmOption_in_range 1 q state) as (o & Ho & Hconfirm);
      [lia|done|].
    exists o. split_and!; [done| |].
    + assert (currentIndex state < length (questions state)) as Hlt
        by (by eapply lookup_lt_Some).
      unfold handleKey. rewrite bool_decide_eq_false_2 by lia.
      rewrite Hshow, Hq, Hmode. unfold handleMultipleChoiceKey.
      rewrite Hq, Hname.
      assert (JS.leb (str "1") (str "backspace")
              && JS.leb (str "backspace") (str "4") = false) as -> by (by vm_compute).
      assert (JS.leb (str "a") (str "backspace")
              && JS.leb (str "backspace") (str "d") = true) as -> by (by vm_compute).
      assert (str "backspace" !! 0 = Some 98%N) as -> by (by vm_compute).
      cbn [mbind option_bind]. change (Z.of_N 98 - 97)%Z with 1%Z.
      by rewrite Hconfirm.
    + destruct (Choice.isCorrect o);
        [by apply counted_correct|by apply counted_incorrect].
Qed.

(** Backspace as the first key of a session on [choiceQuestion]: option b,
    [hello], is graded and [correct] goes from 0 to 1. *)
Lemma backspace_grades_option_b_witness :
  awaiting (initialState [choiceQuestion]) choiceQuestion ∧
  mode choiceQuestion = MultipleChoiceQ ∧
  answered (initialState [choiceQuestion]) = false ∧
  2 ≤ numOptionsOf choiceQuestion ∧
  ¬ finalizingAction (H:=Latin1) backspaceKey (initialState [choiceQuestion])
      choiceQuestion ∧
  ∃ o, options choiceQuestion ≫= (λ os, os !! 1) = Some o ∧
       handleKey (H:=Latin1) backspaceKey (initialState [choiceQuestion])
       = Continue (recordAnswer (Choice.isCorrect o) choiceQuestion
                     (withSelectedOption 1 (initialState [choiceQuestion]))) ∧
       counted (initialState [choiceQuestion])
               (recordAnswer (Choice.isCorrect o) choiceQuestion
                  (withSelectedOption 1 (initialState [choiceQuestion]))).
Proof.
  assert (awaiting (initialState [choiceQuestion]) choiceQuestion) as Hawait
    by (split; reflexivity).
  assert (2 ≤ numOptionsOf choiceQuestion) as Hoptions by (cbn; lia).
  split; [exact Hawait|]. split; [reflexivity|]. split; [reflexivity|].
  split; [exact Hoptions|].
  exact (backspace_grades_option_b (initialState [choiceQuestion]) choiceQuestion
           Hawait eq_refl eq_refl Hoptions).
Defined.

(** The counters after that key. *)
Example backspace_first_key :
  ∃ state', handleKey (H:=Latin1) backspaceKey (initialState [choiceQuestion])
            = Continue state' ∧
            correct state' = 1 ∧ incorrect state' = 0 ∧
            showingResult state' = true ∧ selectedOption state' = 1%Z.
Proof. eexists. split; [by vm_compute|done]. Qed.
